(** * FiPy [trilinosMatrix.py]: a shallow embedding of the Trilinos matrix
    wrapper and the properties of its assembly operations.

    The Python classes [_TrilinosMatrixBase], [_TrilinosMatrix] and
    [_TrilinosMeshMatrix] wrap an [Epetra.CrsMatrix].  The wrapper's methods
    are embedded as programs of a small state-and-exception monad over a heap
    of matrix objects; the calls they make into PyTrilinos are embedded in
    [Module Epetra]. *)

From Stdlib Require Import ZArith Lia Floats.
From stdpp Require Import base option list strings gmap.

Set Default Proof Using "Type".

(** ** Stored values

    The matrices hold float64 values.  The wrapper only ever adds two values,
    multiplies a value by a scalar and writes the constants 0 and 1, so the
    development is generic in these operations; the concrete scenarios run
    on binary64 floats. *)

Class Scalar (V : Type) := {
  vzero : V;
  vone : V;
  vadd : V → V → V;
  vmul : V → V → V;
  vopp : V → V
}.

#[export] Instance float_Scalar : Scalar float := {
  vzero := 0%float;
  vone := 1%float;
  vadd := PrimFloat.add;
  vmul := PrimFloat.mul;
  vopp := PrimFloat.opp
}.

#[export] Instance Z_Scalar : Scalar Z := {
  vzero := 0%Z;
  vone := 1%Z;
  vadd := Z.add;
  vmul := Z.mul;
  vopp := Z.opp
}.

(** ** numerix (numpy) helpers used by the wrapper *)

Module numerix.

(** [numerix.zeros(n)] *)
Definition zeros {V} `{Scalar V} (n : nat) : list V := replicate n vzero.

(** [numerix.ones(n)] *)
Definition ones {V} `{Scalar V} (n : nat) : list V := replicate n vone.

(** [numerix.arange(n)] *)
Definition arange (n : nat) : list Z := Z.of_nat <$> seq 0 n.

(** [a[i]] for one integer index: a negative index counts from the end,
    an index out of range raises [IndexError] (here [None]). *)
Definition item {A} (a : list A) (i : Z) : option A :=
  if (0 <=? i)%Z then a !! Z.to_nat i
  else if (- Z.of_nat (length a) <=? i)%Z
       then a !! Z.to_nat (Z.of_nat (length a) + i)
       else None.

(** [a[ids]] for an integer index array. *)
Definition take {A} (a : list A) (ids : list Z) : option (list A) :=
  mapM (item a) ids.

(** [numerix.in1d(a, b)]: for each element of [a], whether it occurs in
    [b]. *)
Definition in1d (a b : list Z) : list bool :=
  (λ x, bool_decide (x ∈ b)) <$> a.

(** [a[mask]] for a boolean mask; the mask must have the length of [a]
    ([IndexError] otherwise). *)
Fixpoint compress {A} (a : list A) (mask : list bool) : option (list A) :=
  match a, mask with
  | [], [] => Some []
  | x :: a', b :: mask' =>
      r ← compress a' mask';
      Some (if b then x :: r else r)
  | _, _ => None
  end.

End numerix.

(** ** The PyTrilinos interface *)

Module Epetra.
Section CrsMatrix.
Context {V : Type} `{Scalar V}.

(** Modelled from the spec: PyTrilinos' [Epetra.CrsMatrix] is an external
    library.  Following the spec's data model a matrix is its fill state
    and a mapping from (global row, global column) to the stored value;
    the row and column maps are left out, and indices are taken to lie
    within them (the wrapper never checks them). *)
Record CrsMatrix := mkCrs {
  Filled : bool;
  StorageOptimized : bool;
  Values : gmap (Z * Z) V
}.

(** [Epetra.CrsMatrix(Epetra.Copy, rowMap, colMap, bandwidth)] *)
Definition empty : CrsMatrix := mkCrs false false ∅.

(** The three parallel sequences [(id1, id2, vector)] of a bulk call, as
    one sequence of (row, column, value) triples. *)
Definition triples (id1 id2 : list Z) (vector : list V)
  : list (Z * Z * V) :=
  zip (zip id1 id2) vector.

Definition NumGlobalNonzeros (m : CrsMatrix) : nat := size (Values m).

(** Modelled from the spec: [FillComplete] freezes the structure; with
    its default argument it also optimizes the storage. *)
Definition FillComplete (m : CrsMatrix) : CrsMatrix :=
  mkCrs true true (Values m).

(** Modelled from the spec: [OptimizeStorage] compacts a filled matrix
    and does nothing to one that is already compacted. *)
Definition OptimizeStorage (m : CrsMatrix) : CrsMatrix :=
  mkCrs (Filled m) (Filled m || StorageOptimized m) (Values m).

(** One inserted value: a new structural position, or summed into the
    position when it is there already. *)
Definition insert1 (vals : gmap (Z * Z) V) (t : Z * Z * V)
  : gmap (Z * Z) V :=
  partial_alter
    (λ o, Some match o with Some x => vadd x t.2 | None => t.2 end)
    t.1 vals.

(** Modelled from the spec: [InsertGlobalValues(rows, cols, values)] adds
    structural positions; repeated positions accumulate. *)
Definition InsertGlobalValues (id1 id2 : list Z) (vector : list V)
    (m : CrsMatrix) : CrsMatrix :=
  mkCrs (Filled m) (StorageOptimized m)
        (foldl insert1 (Values m) (triples id1 id2 vector)).

(** One value written to a frozen structure by [f old new]: applied when
    the position exists, dropped with an error code otherwise. *)
Definition write1 (f : V → V → V) (acc : gmap (Z * Z) V * Z)
    (t : Z * Z * V) : gmap (Z * Z) V * Z :=
  match acc.1 !! t.1 with
  | Some x => (<[t.1 := f x t.2]> acc.1, acc.2)
  | None => (acc.1, 2%Z)
  end.

Definition writeAll (f : V → V → V) (id1 id2 : list Z) (vector : list V)
    (m : CrsMatrix) : CrsMatrix * Z :=
  let r := foldl (write1 f) (Values m, 0%Z) (triples id1 id2 vector) in
  (mkCrs (Filled m) (StorageOptimized m) r.1, r.2).

(** Modelled from the spec: [SumIntoGlobalValues] adds into existing
    structural positions; a value whose position is missing is dropped
    and the call returns a non-zero code. *)
Definition SumIntoGlobalValues := writeAll vadd.

(** Modelled from the spec: [ReplaceGlobalValues] overwrites existing
    structural positions; a value whose position is missing is dropped
    and the call returns a non-zero code. *)
Definition ReplaceGlobalValues := writeAll (λ _ new, new).

(** [Scale(s)]: every stored value is multiplied by [s]. *)
Definition Scale (s : V) (m : CrsMatrix) : CrsMatrix :=
  mkCrs (Filled m) (StorageOptimized m) ((λ x, vmul x s) <$> Values m).


(** [matrix[index]] *)
Definition getitem (m : CrsMatrix) (index : Z * Z) : V :=
  default vzero (Values m !! index).

(** Modelled from the spec: [EpetraExt.Add(A, False, 1, B, 1)] forms
    [B := A + B].  [A] must be filled.  Into a filled [B] the values of
    [A] are summed position by position, those without a position in [B]
    are dropped and reported by a non-zero code; into an unfilled [B] they
    are inserted. *)
Definition sum_into (b a : option V) : option V :=
  match b, a with
  | Some x, Some y => Some (vadd x y)
  | Some x, None => Some x
  | None, _ => None
  end.

Definition insert_into (b a : option V) : option V :=
  match b, a with
  | Some x, Some y => Some (vadd x y)
  | Some x, None => Some x
  | None, Some y => Some y
  | None, None => None
  end.

Definition Add (A B : CrsMatrix) : CrsMatrix * Z :=
  if negb (Filled A) then (B, (-1)%Z)
  else if Filled B then
    (mkCrs true (StorageOptimized B) (merge sum_into (Values B) (Values A)),
     if bool_decide (dom (Values A) ⊆ dom (Values B)) then 0%Z else 2%Z)
  else
    (mkCrs false (StorageOptimized B)
           (merge insert_into (Values B) (Values A)), 0%Z).

End CrsMatrix.
Arguments CrsMatrix V : clear implicits.
End Epetra.

(** ** Python objects, warnings and exceptions *)

(** A reference to a wrapper object.  In the operations embedded here an
    [Epetra.CrsMatrix] is never shared by two wrappers ([copy] builds a new
    one, [__iadd__] rebinds [self.matrix] to a new one), so the heap maps a
    wrapper straight to the matrix its [matrix] attribute holds. *)
Definition loc := positive.

Inductive exn :=
  | AttributeError
  | TypeError
  | IndexError
  | ZeroDivisionError
  | ReferenceError.  (* a reference to no object: unreachable from Python *)

(** The calls into the library that change the lifecycle of a matrix. *)
Inductive call :=
  | CallFillComplete (l : loc)
  | CallOptimizeStorage (l : loc).

#[export] Instance call_eq_dec : EqDecision call.
Proof. solve_decision. Defined.

Inductive result (A : Type) :=
  | Ok (a : A)
  | Raise (e : exn).
Arguments Ok {A} a.
Arguments Raise {A} e.

(** The right operand of [+], [-]: a Python int, another scalar, or a
    matrix object. *)
Inductive operand (V : Type) :=
  | OInt (z : Z)
  | OFloat (x : V)
  | OMatrix (l : loc).
Arguments OInt {V} z.
Arguments OFloat {V} x.
Arguments OMatrix {V} l.

(** [other is 0]: CPython keeps one object for the int 0, so the test holds
    exactly for an int that is zero. *)
Definition is_0 {V} (other : operand V) : bool :=
  match other with
  | OInt 0 => true
  | _ => false
  end.

Section Wrapper.
Context {V : Type} `{Scalar V}.
Import Epetra.

Record World := mkWorld {
  heap : gmap loc (CrsMatrix V);
  warnings : list string;   (* [warnings.warn] messages, latest first *)
  calls : list call         (* lifecycle calls issued, latest first *)
}.

Definition M (A : Type) : Type := World → result A * World.

Definition ret {A} (a : A) : M A := λ w, (Ok a, w).

Definition bind {A B} (c : M A) (k : A → M B) : M B :=
  λ w, match c w with
       | (Ok a, w') => k a w'
       | (Raise e, w') => (Raise e, w')
       end.

Definition raise {A} (e : exn) : M A := λ w, (Raise e, w).

Notation "'let!' x ':=' c 'in' k" := (bind c (λ x, k))
  (at level 10, x name, c at level 100, k at level 200).
Notation "'do!' c 'in' k" := (bind c (λ _, k))
  (at level 10, c at level 100, k at level 200).

(** Python's [a > b] on nonzero counts. *)
Notation "a >? b" := (Nat.ltb b a) (at level 70).

(** [self.matrix] *)
Definition getMatrix (self : loc) : M (CrsMatrix V) :=
  λ w, match heap w !! self with
       | Some m => (Ok m, w)
       | None => (Raise ReferenceError, w)
       end.

(** [self.matrix = m], and in-place mutation of [self.matrix] *)
Definition setMatrix (self : loc) (m : CrsMatrix V) : M unit :=
  λ w, (Ok (), mkWorld (<[self := m]> (heap w)) (warnings w) (calls w)).

(** A new wrapper object around [m]. *)
Definition new (m : CrsMatrix V) : M loc :=
  λ w, let l := fresh (dom (heap w)) in
       (Ok l, mkWorld (<[l := m]> (heap w)) (warnings w) (calls w)).

Definition warn (msg : string) : M unit :=
  λ w, (Ok (), mkWorld (heap w) (msg :: warnings w) (calls w)).

Definition log (c : call) : M unit :=
  λ w, (Ok (), mkWorld (heap w) (warnings w) (c :: calls w)).

(** [self.matrix.FillComplete()] *)
Definition callFillComplete (self : loc) : M unit :=
  let! m := getMatrix self in
  do! log (CallFillComplete self) in
  setMatrix self (FillComplete m).

(** [self.matrix.OptimizeStorage()] *)
Definition callOptimizeStorage (self : loc) : M unit :=
  let! m := getMatrix self in
  do! log (CallOptimizeStorage self) in
  setMatrix self (OptimizeStorage m).

(** The recurring guard
    [if not self.matrix.Filled(): self.matrix.FillComplete()]. *)
Definition fillIfNotFilled (self : loc) : M unit :=
  let! m := getMatrix self in
  if Filled m then ret () else callFillComplete self.

(** *** [_TrilinosMatrixBase] *)

(** [copy] of a matrix that has rows.  The constructor the copy goes
    through divides by [matrix.NumGlobalRows()] (lines 93-95) and the model
    of the library holds no row map: [Rows.copy] below takes the row count
    and raises [ZeroDivisionError] when it is zero. *)
Definition copy (self : loc) : M loc :=
  do! fillIfNotFilled self in
  let! m := getMatrix self in
  new m.


(** [__mul__] with a scalar right operand ([numerix.shape(other) == ()]),
    the branch [_add] takes through [other*sign]. *)
Definition __mul__scalar (self : loc) (other : V) : M loc :=
  let! result := copy self in
  let! m := getMatrix result in
  do! setMatrix result (Scale other m) in
  ret result.

(** [__iadd__] with a matrix operand.  [other != 0] then holds: a
    [_SparseMatrix] defines no comparison, so it is unequal to the int 0.
    The receiver has rows: [tempBandwidth] of the first branch is a
    quotient by [self.matrix.NumGlobalRows()], which [Rows.__iadd__] below
    computes. *)
Definition __iadd__ (self other : loc) : M loc :=
  let! o := getMatrix other in
  do! (if Filled o then ret () else callFillComplete other) in
  let! s := getMatrix self in
  let! o := getMatrix other in
  do! (if Filled s && (NumGlobalNonzeros o >? NumGlobalNonzeros s)
   then
     let tempMatrix := Epetra.empty in
     let r1 := Add o tempMatrix in
     do! (if bool_decide (r1.2 ≠ 0%Z)
      then warn "EpetraExt.Add returned error code in __iadd__, 1"
      else ret ()) in
     let! s := getMatrix self in
     let r2 := Add s r1.1 in
     do! (if bool_decide (r2.2 ≠ 0%Z)
      then warn "EpetraExt.Add returned error code in __iadd__, 2"
      else ret ()) in
     setMatrix self r2.1
   else
     let r := Add o s in
     do! setMatrix self r.1 in
     if bool_decide (r.2 ≠ 0%Z)
     then warn "EpetraExt.Add returned error code in __iadd__"
     else ret ()) in
  ret self.

(** [_add] *)
Definition _add (self : loc) (other : operand V) (sign : V) : M loc :=
  do! fillIfNotFilled self in
  match other with
  | OMatrix other =>
      do! fillIfNotFilled other in
      let! s := getMatrix self in
      let! o := getMatrix other in
      if NumGlobalNonzeros s >? NumGlobalNonzeros o then
        let! tempMatrix := copy self in
        let! scaled := __mul__scalar other sign in
        do! __iadd__ tempMatrix scaled in
        ret tempMatrix
      else
        let! tempMatrix := copy other in
        let! scaled := __mul__scalar self sign in
        do! __iadd__ tempMatrix scaled in
        ret tempMatrix
  | _ => raise AttributeError   (* [other.matrix] of a number *)
  end.

(** [__add__]; [__radd__ = __add__] *)
Definition __add__ (self : loc) (other : operand V) : M loc :=
  if is_0 other then ret self else _add self other vone.

Definition __radd__ := __add__.

(** [__sub__] *)
Definition __sub__ (self : loc) (other : operand V) : M loc :=
  if is_0 other then ret self else _add self other (vopp vone).

(** The messages of the two warnings of [put] and [addAt]. *)
Definition ReplaceWarning : string :=
  "ReplaceGlobalValues returned error code in put".
Definition SumWarning : string :=
  "Summing into unfilled matrix returned error code".

(** [put], from line 345 on: [id1] and [id2] are the index arguments
    after lines 340-343, which cast an int64 array to int32 and leave a
    list, a tuple or an int32 array as it is; [Cast.put] below starts at
    the cast. *)
Definition put (self : loc) (vector : list V) (id1 id2 : list Z)
  : M unit :=
  let! m := getMatrix self in
  if Filled m then
    let r := ReplaceGlobalValues id1 id2 vector m in
    do! setMatrix self r.1 in
    if bool_decide (r.2 ≠ 0%Z)
    then warn ReplaceWarning
    else ret ()
  else
    if bool_decide (NumGlobalNonzeros m = 0%nat) then
      setMatrix self (InsertGlobalValues id1 id2 vector m)
    else
      do! setMatrix self
            (InsertGlobalValues id1 id2 (numerix.zeros (length vector)) m) in
      do! fillIfNotFilled self in
      let! m := getMatrix self in
      let r := ReplaceGlobalValues id1 id2 vector m in
      do! setMatrix self r.1 in
      if bool_decide (r.2 ≠ 0%Z)
      then warn ReplaceWarning
      else ret ().

(** [putDiagonal] with a sequence argument *)
Definition putDiagonal (self : loc) (vector : list V) : M unit :=
  let ids := numerix.arange (length vector) in
  put self vector ids ids.


(** [addAt], from line 456 on: [id1] and [id2] are the index arguments
    after lines 451-454, which cast an int64 array to int32 and leave a
    list, a tuple or an int32 array as it is; [Cast.addAt] below starts at
    the cast. *)
Definition addAt (self : loc) (vector : list V) (id1 id2 : list Z)
  : M unit :=
  let! m := getMatrix self in
  if negb (Filled m) then
    setMatrix self (InsertGlobalValues id1 id2 vector m)
  else
    let r := SumIntoGlobalValues id1 id2 vector m in
    do! setMatrix self r.1 in
    if bool_decide (r.2 ≠ 0%Z)
    then warn SumWarning
    else ret ().



(** [finalize] *)
Definition finalize (self : loc) : M unit :=
  do! fillIfNotFilled self in
  callOptimizeStorage self.

(** [_TrilinosMatrix(rows, cols)]: a new wrapper around an empty,
    unfilled matrix. *)
Definition _TrilinosMatrix : M loc := new Epetra.empty.

(** [_TrilinosIdentityMatrix(size)] *)
Definition _TrilinosIdentityMatrix (size : nat) : M loc :=
  let! self := _TrilinosMatrix in
  let ids := numerix.arange size in
  do! addAt self (numerix.ones size) ids ids in
  ret self.

End Wrapper.
Arguments World V : clear implicits.
Arguments M V A : clear implicits.

(** ** Vector redistribution *)

Module Redistribution.
Section Vectors.
Context {V : Type} `{Scalar V}.

(** Modelled from the spec: an [Epetra.Map] is, for each process (by
    process ID), the ordered global indices the process holds; the
    number of processes is the length of the list. *)
Abbreviation Map := (list (list Z)).

Definition NumProc (map : Map) : nat := length map.

(** [NumGlobalElements]: the local sizes added up over the processes. *)
Definition NumGlobalElements (map : Map) : nat := length (concat map).

(** An [Epetra.Vector]: its map and, for each process, the values at the
    indices the process holds. *)
Record Vector := mkVector {
  vMap : Map;
  vData : list (list V)
}.

(** A numpy vector as the program sees it: one array per process. *)
Abbreviation numpyVector := (list (list V)).

(** [Epetra.Vector(map, v)]: each process keeps as many leading values
    of its [v] as its part of the map has indices. *)
Definition VectorOf (map : Map) (v : numpyVector) : Vector :=
  mkVector map (zip_with (λ ids x, take (length ids) x) map v).

(** [Epetra.Vector(v)]: each process wraps its own array. *)
Definition VectorOfArray (v : numpyVector) : Vector :=
  mkVector ((λ x, numerix.arange (length x)) <$> v) v.

(** The (global index, value) pairs of a vector over all processes, in
    process order. *)
Definition entries (x : Vector) : list (Z * V) :=
  concat (zip_with zip (vMap x) (vData x)).

Fixpoint assoc (g : Z) (l : list (Z * V)) : option V :=
  match l with
  | [] => None
  | (g', x) :: l' => if bool_decide (g' = g) then Some x else assoc g l'
  end.

(** Modelled from the spec: [target.Import(source, Epetra.Import(targetMap,
    sourceMap), Epetra.Insert)] on a zero-initialised [Epetra.Vector(
    targetMap)]: every index of the target map receives the value the
    source holds for that global index, and stays zero when no process
    holds it. *)
Definition Import_Insert (targetMap : Map) (source : Vector) : Vector :=
  mkVector targetMap
    ((λ ids : list Z,
        (λ g, default vzero (assoc g (entries source))) <$> ids)
     <$> targetMap).

(** [_numpyToTrilinosVector] *)
Definition _numpyToTrilinosVector (v : numpyVector) (map : Map) : Vector :=
  if bool_decide (NumProc map = 1%nat) then VectorOfArray v
  else
    let myElements :=
      imap (λ MyPID x, if bool_decide (MyPID = 0%nat)
                       then length x else 0%nat) v in
    let RootMap := numerix.arange <$> myElements in
    let rootVector := VectorOf RootMap v in
    Import_Insert map rootVector.

(** [_trilinosToNumpyVector] *)
Definition _trilinosToNumpyVector (v : Vector) : numpyVector :=
  if bool_decide (NumProc (vMap v) = 1%nat) then vData v
  else
    let PersonalMap :=
      (λ _, numerix.arange (NumGlobalElements (vMap v))) <$> vMap v in
    vData (Import_Insert PersonalMap v).

End Vectors.
Arguments Vector V : clear implicits.
End Redistribution.

(** ** [_TrilinosMeshMatrix]: translation of local indices *)

Module MeshMatrix.

(** The attributes of the mesh the matrix reads. *)
Record Mesh := mkMesh {
  _globalNonOverlappingCellIDs : list Z;
  _globalOverlappingCellIDs : list Z;
  _localNonOverlappingCellIDs : list Z;
  globalNumberOfCells : Z;
  numberOfCells : Z
}.

(** The attributes [__init__] stores.  The block counts are positive:
    with a count of zero [numerix.vstack] raises in [__init__]. *)
Record _TrilinosMeshMatrix := mkMeshMatrix {
  mesh : Mesh;
  numberOfVariables : positive;
  numberOfEquations : positive
}.

(** [(numerix.vstack([IDs] * M) + numerix.indices((M,N))[0] * stride)
    .flatten()]: block [e] of the result is [IDs] shifted by
    [e * stride].  The numbers are those of a mesh, far from the ends of
    int64; [Wrapping.blocks] below is the same expression in numpy's
    int64 arithmetic. *)
Definition blocks (M : positive) (stride : Z) (IDs : list Z) : list Z :=
  e ← numerix.arange (Pos.to_nat M);
  (λ c, c + e * stride)%Z <$> IDs.

Definition _cellIDsToGlobalRowIDs (self : _TrilinosMeshMatrix)
    (IDs : list Z) : list Z :=
  blocks (numberOfEquations self) (globalNumberOfCells (mesh self)) IDs.

Definition _cellIDsToGlobalColIDs (self : _TrilinosMeshMatrix)
    (IDs : list Z) : list Z :=
  blocks (numberOfVariables self) (globalNumberOfCells (mesh self)) IDs.

Definition _cellIDsToLocalRowIDs (self : _TrilinosMeshMatrix)
    (IDs : list Z) : list Z :=
  blocks (numberOfEquations self) (numberOfCells (mesh self)) IDs.

Definition _globalNonOverlappingRowIDs (self : _TrilinosMeshMatrix) :=
  _cellIDsToGlobalRowIDs self (_globalNonOverlappingCellIDs (mesh self)).

Definition _globalOverlappingRowIDs (self : _TrilinosMeshMatrix) :=
  _cellIDsToGlobalRowIDs self (_globalOverlappingCellIDs (mesh self)).

Definition _localNonOverlappingRowIDs (self : _TrilinosMeshMatrix) :=
  _cellIDsToLocalRowIDs self (_localNonOverlappingCellIDs (mesh self)).

(** [_getStencil]; [None] stands for numpy's [IndexError]. *)
Definition _getStencil (self : _TrilinosMeshMatrix) (id1 id2 : list Z)
  : option (list Z * list Z * list bool) :=
  let globalOverlappingRowIDs := _globalOverlappingRowIDs self in
  let globalNonOverlappingRowIDs := _globalNonOverlappingRowIDs self in
  id1 ← numerix.take globalOverlappingRowIDs id1;
  id2 ← numerix.take globalOverlappingRowIDs id2;
  let mask := numerix.in1d id1 globalNonOverlappingRowIDs in
  id1 ← numerix.compress id1 mask;
  id2 ← numerix.compress id2 mask;
  Some (id1, id2, mask).

(** [_globalNonOverlapping] *)
Definition _globalNonOverlapping {V} (self : _TrilinosMeshMatrix)
    (vector : list V) (id1 id2 : list Z)
  : option (list V * list Z * list Z) :=
  '(id1, id2, mask) ← _getStencil self id1 id2;
  vector ← numerix.compress vector mask;
  Some (vector, id1, id2).

End MeshMatrix.

(** ** Vocabulary of the properties *)

Section Vocabulary.
Context {V : Type} `{Scalar V}.
Import Epetra.
Implicit Types (w : World V) (m : CrsMatrix V) (self other l : loc).

(** The values a batch sends to position [p], in batch order. *)
Definition targeting (p : Z * Z) (ts : list (Z * Z * V)) : list V :=
  snd <$> filter (λ t, t.1 = p) ts.

(** The matrix, and the world, once the guard
    [if not self.matrix.Filled(): self.matrix.FillComplete()] has run. *)
Definition filled m : CrsMatrix V :=
  if Filled m then m else FillComplete m.

Definition fill self m w : World V :=
  if Filled m then w
  else mkWorld (<[self := FillComplete m]> (heap w)) (warnings w)
               (CallFillComplete self :: calls w).

(** The tail the two branches of [_add] share: copy the operand [x],
    scale a copy of [y], add the scaled copy into the copy of [x]. *)
Definition combine (x y : loc) (sign : V) : M V loc :=
  bind (copy x) (λ tempMatrix,
  bind (__mul__scalar y sign) (λ scaled,
  bind (__iadd__ tempMatrix scaled) (λ _, ret tempMatrix))).

(** The values [_add] leaves in its result: the operand with more
    nonzeros receives the other one scaled by [sign]. *)
Definition added (sign : V) (A B : gmap (Z * Z) V) : gmap (Z * Z) V :=
  if Nat.ltb (size B) (size A)
  then merge sum_into A ((λ x, vmul x sign) <$> B)
  else merge sum_into B ((λ x, vmul x sign) <$> A).

(** How often the lifecycle call [c] was issued. *)
Definition count_calls (c : call) (l : list call) : nat :=
  length (filter (λ c', c' = c) l).


End Vocabulary.

(** ** Concrete scenarios on binary64 values *)

Module Scenarios.
Import Epetra.

Notation "'let!' x ':=' c 'in' k" := (bind c (λ x, k))
  (at level 10, x name, c at level 100, k at level 200).
Notation "'do!' c 'in' k" := (bind c (λ _, k))
  (at level 10, c at level 100, k at level 200).

(** No object yet, nothing warned, nothing called. *)
Definition start : World float := mkWorld ∅ [] [].

(** [numerix.pi] *)
Definition pi : float := 0x1.921fb54442d18p+1%float.

(** What [numpyArray] shows of an [n] by [n] matrix: the stored values,
    zero where nothing is stored. *)
Definition numpyArray (n : nat) (m : CrsMatrix float) : list (list float) :=
  (λ i, (λ j, getitem m (i, j)) <$> numerix.arange n) <$> numerix.arange n.

(** The doctest of [__add__]:
    [L = _TrilinosMatrix(rows=3, cols=3)],
    [L.addAt((3.,10.,numerix.pi,2.5), (0,0,1,2), (2,1,1,0))],
    [L.addAt([0,0,0], [0,1,2], [0,1,2])],
    [L + _TrilinosIdentityMatrix(size=3)]. *)
Definition L_plus_identity : M float loc :=
  let! L := _TrilinosMatrix in
  do! addAt L [3; 10; pi; 2.5]%float [0; 0; 1; 2]%Z [2; 1; 1; 0]%Z in
  do! addAt L [0; 0; 0]%float [0; 1; 2]%Z [0; 1; 2]%Z in
  let! I3 := _TrilinosIdentityMatrix 3 in
  __add__ L (OMatrix I3).

(** [A = _TrilinosMatrix(rows=2, cols=2)], [A.addAt([5.], [0], [0])],
    [B = _TrilinosMatrix(rows=2, cols=2)],
    [B.addAt([3., 1.], [0, 0], [0, 1])], [A - B]: the pattern of [A]
    lies within that of [B]. *)
Definition A_minus_B : M float loc :=
  let! A := _TrilinosMatrix in
  do! addAt A [5]%float [0]%Z [0]%Z in
  let! B := _TrilinosMatrix in
  do! addAt B [3; 1]%float [0; 0]%Z [0; 1]%Z in
  __sub__ A (OMatrix B).

(** A world with one matrix, object 1. *)
Definition one (m : CrsMatrix float) : World float :=
  mkWorld {[ 1%positive := m ]} [] [].

(** A FILLED matrix that stores 1 at (0,0) and nothing else. *)
Definition filled_1x1 : CrsMatrix float :=
  mkCrs true true {[ (0, 0)%Z := 1%float ]}.

(** An UNFILLED matrix that stores 1 at (0,0) and nothing else. *)
Definition unfilled_1x1 : CrsMatrix float :=
  mkCrs false false {[ (0, 0)%Z := 1%float ]}.

(** Two matrices of integers, the pattern of the first within that of
    the second. *)
Definition nested : World Z :=
  mkWorld {[ 1%positive := mkCrs false false {[ (0, 0)%Z := 5%Z ]};
             2%positive := mkCrs false false
                             {[ (0, 0)%Z := 3%Z; (0, 1)%Z := 1%Z ]} ]}
          [] [].

(** The doctest of [_TrilinosMeshMatrix]: [Grid1D(nx=5)] with three
    equations on process 0 of two; cells 0 and 1 are owned, cells 2 and
    3 are halo. *)
Definition grid5 : MeshMatrix._TrilinosMeshMatrix :=
  MeshMatrix.mkMeshMatrix
    (MeshMatrix.mkMesh [0; 1]%Z [0; 1; 2; 3]%Z [0; 1]%Z 5%Z 4%Z)
    3%positive 3%positive.

(** Two matrices of integers: object 1 is FILLED and stores (0,0) and
    (0,1); object 2 is UNFILLED and stores (0,0). *)
Definition nested_filled : World Z :=
  mkWorld {[ 1%positive := mkCrs true true
                             {[ (0, 0)%Z := 3%Z; (0, 1)%Z := 1%Z ]};
             2%positive := mkCrs false false {[ (0, 0)%Z := 5%Z ]} ]}
          [] [].

End Scenarios.

(** ** Further operations of [trilinosMatrix.py] *)

Section MoreWrapper.
Context {V : Type} `{Scalar V}.
Import Epetra.



(** What a position holds after the values [vs] were inserted one after
    the other: the first one opens the position when nothing is stored,
    the others are added. *)
Definition accumulated (o : option V) (vs : list V) : option V :=
  foldl (λ o v, Some match o with Some x => vadd x v | None => v end) o vs.


End MoreWrapper.

(** Whether [(r, c)] is one of the first [n] diagonal positions. *)
Definition on_diagonal (n : nat) (r c : Z) : Prop :=
  r = c ∧ (0 ≤ r < Z.of_nat n)%Z.

#[export] Instance on_diagonal_dec n r c : Decision (on_diagonal n r c).
Proof. unfold on_diagonal. apply _. Defined.

(** [_TrilinosMatrix.__init__]: the bandwidth.  The arguments are Python
    ints, [/] is floor division. *)
Module Bandwidth.

(** [_TrilinosMatrix.__init__]: the bandwidth kept in [self.bandwidth]. *)
Definition bandwidth (rows cols bandwidth : Z) (sizeHint : option Z) : Z :=
  let size := Z.max rows cols in
  match sizeHint with
  | Some sizeHint =>
      if (bandwidth =? 0)%Z
      then ((sizeHint + size - 1) / (if (size =? 0)%Z then 1 else size))%Z
      else bandwidth
  | None => bandwidth
  end.

(** The row size [Epetra.CrsMatrix] is created with: [bandwidth*3/2]. *)
Definition allocated (bandwidth : Z) : Z := (bandwidth * 3 / 2)%Z.

End Bandwidth.

(** [_TrilinosMeshMatrixKeepStencil] *)
Module KeepStencil.
Import MeshMatrix.

Abbreviation Stencil := (list Z * list Z * list bool)%type.

(** The two attributes the class adds and deletes: whether [_matrix] is
    set, and the cached [stencil]. *)
Record attrs := mkAttrs {
  has_matrix : bool;
  stencil : option Stencil
}.

(** [_getStencil]: computed by [_TrilinosMeshMatrix._getStencil] when no
    [stencil] attribute exists, and kept. *)
Definition _getStencil (self : _TrilinosMeshMatrix) (a : attrs)
    (id1 id2 : list Z) : result Stencil * attrs :=
  match stencil a with
  | Some s => (Ok s, a)
  | None =>
      match MeshMatrix._getStencil self id1 id2 with
      | Some s => (Ok s, mkAttrs (has_matrix a) (Some s))
      | None => (Raise IndexError, a)
      end
  end.

(** [flush]: [del self._matrix], then [del self.stencil] unless
    [cacheStencil]; [del] of a missing attribute raises
    [AttributeError]. *)
Definition flush (cacheStencil : bool) (a : attrs) : result unit * attrs :=
  if has_matrix a then
    let a1 := mkAttrs false (stencil a) in
    if cacheStencil then (Ok (), a1)
    else match stencil a with
         | Some _ => (Ok (), mkAttrs false None)
         | None => (Raise AttributeError, a1)
         end
  else (Raise AttributeError, a).

End KeepStencil.

(** ** [_ArithmeticCellToFaceVariable] *)

Module ArithmeticCellToFace.
Section Interpolate.
Context {V : Type} (sub mul add : V → V → V).

(** [_calcValuePy]: [numerix.take] twice, then
    [(cell1 - cell2) * alpha + cell2] element by element, on three arrays
    of one length, one weight for each face.  Arrays of other lengths,
    which numpy rejects or, for a length of one, broadcasts, give
    [None]. *)
Definition _calcValuePy (var alpha : list V) (id1 id2 : list Z)
  : option (list V) :=
  cell1 ← numerix.take var id1;
  cell2 ← numerix.take var id2;
  if bool_decide (length cell1 = length cell2 ∧
                  length alpha = length cell2)
  then Some (zip_with (λ d c2, add d c2)
               (zip_with mul (zip_with sub cell1 cell2) alpha) cell2)
  else None.

(** One turn of the inline loop, at face [i]:
    [double cell2 = var(id2(i)); val(i) = (var(id1(i)) - cell2) * alpha(i)
    + cell2;].  The C arrays are not bounds-checked: an index outside an
    array has no defined result, here [None]. *)
Definition body (var alpha : list V) (id1 id2 : list Z) (val : list V)
    (i : nat) : option (list V) :=
  j2 ← id2 !! i;
  guard (0 ≤ j2)%Z;;
  cell2 ← var !! Z.to_nat j2;
  j1 ← id1 !! i;
  guard (0 ≤ j1)%Z;;
  cell1 ← var !! Z.to_nat j1;
  a ← alpha !! i;
  guard (i < length val)%nat;;
  Some (<[i := add (mul (sub cell1 cell2) a) cell2]> val).

(** [_calcValueIn]: the loop over the [ni] faces on a copy [val] of the
    variable's array. *)
Definition _calcValueIn (var alpha : list V) (id1 id2 : list Z)
    (val : list V) (ni : nat) : option (list V) :=
  foldl (λ acc i, val ← acc; body var alpha id1 id2 val i)
        (Some val) (seq 0 ni).

(** The value of face [i]:
    [(var[id1[i]] - var[id2[i]]) * alpha[i] + var[id2[i]]]. *)
Definition face (var alpha : list V) (id1 id2 : list Z) (i : nat)
  : option V :=
  j2 ← id2 !! i; cell2 ← var !! Z.to_nat j2;
  j1 ← id1 !! i; cell1 ← var !! Z.to_nat j1;
  a ← alpha !! i;
  Some (add (mul (sub cell1 cell2) a) cell2).

End Interpolate.
End ArithmeticCellToFace.

(** ** Index arrays and their cast

    [put] (lines 340-343) and [addAt] (lines 451-454) begin by casting an
    index argument that is a numpy array of dtype int64 to int32, with
    [astype('int32')], which keeps the low 32 bits of every index; a list,
    a tuple or an array of another type is passed on as it is. *)

(** The [bits]-bit two's complement number with the low [bits] bits of
    [z]: what numpy's fixed-width integers keep of a result. *)
Definition wrap (bits z : Z) : Z :=
  ((z + 2 ^ (bits - 1)) mod 2 ^ bits - 2 ^ (bits - 1))%Z.

Definition int32 : Z → Z := wrap 32.
Definition int64 : Z → Z := wrap 64.

(** The numbers an int32 holds. *)
Definition in_int32 (z : Z) : Prop := (- 2 ^ 31 ≤ z < 2 ^ 31)%Z.

Module Cast.

(** An index argument: its numbers, and whether it is an int64 array
    ([hasattr(id, 'astype') and id.dtype.name == 'int64'] in [addAt],
    with ['dtype'] for ['astype'] in [put]). *)
Record indices := mkIndices {
  is_int64 : bool;
  values : list Z
}.

(** [if ...: id = id.astype('int32')] *)
Definition astype_int32 (id : indices) : list Z :=
  if is_int64 id then int32 <$> values id else values id.

Section Cast.
Context {V : Type} `{Scalar V}.

(** [put], from its first line *)
Definition put (self : loc) (vector : list V) (id1 id2 : indices)
  : M V unit :=
  let id1 := astype_int32 id1 in
  let id2 := astype_int32 id2 in
  put self vector id1 id2.

(** [addAt], from its first line *)
Definition addAt (self : loc) (vector : list V) (id1 id2 : indices)
  : M V unit :=
  let id1 := astype_int32 id1 in
  let id2 := astype_int32 id2 in
  addAt self vector id1 id2.

End Cast.
End Cast.

(** ** The row count

    [_TrilinosMatrixBase.__init__] called without a bandwidth, as [copy]
    calls it, sets [self.bandwidth] to a quotient by
    [matrix.NumGlobalRows()] (lines 93-95), and so does the first branch of
    [__iadd__] with [tempBandwidth] (lines 157-158): on a matrix without
    rows Python raises [ZeroDivisionError].  The methods below are [copy],
    [__iadd__] and their callers with these divisions.  The row count is
    fixed by the row map a matrix is created with, which the model of the
    library leaves out, so it is passed along: [NumGlobalRows] is what
    [self.matrix.NumGlobalRows()] returns. *)
Module Rows.
Section Rows.
Context {V : Type} `{Scalar V}.
Import Epetra.

Notation "'let!' x ':=' c 'in' k" := (bind c (λ x, k))
  (at level 10, x name, c at level 100, k at level 200).
Notation "'do!' c 'in' k" := (bind c (λ _, k))
  (at level 10, c at level 100, k at level 200).
Notation "a >? b" := (Nat.ltb b a) (at level 70).

(** [copy]: the guard, [Epetra.CrsMatrix(self.matrix)], then the
    constructor, which divides before the new object exists. *)
Definition copy (NumGlobalRows : Z) (self : loc) : M V loc :=
  do! fillIfNotFilled self in
  let! m := getMatrix self in
  if (NumGlobalRows =? 0)%Z then raise ZeroDivisionError
  else new m.

(** [__mul__] with a scalar right operand *)
Definition __mul__scalar (NumGlobalRows : Z) (self : loc) (other : V)
  : M V loc :=
  let! result := copy NumGlobalRows self in
  let! m := getMatrix result in
  do! setMatrix result (Scale other m) in
  ret result.

(** [__iadd__] with a matrix operand *)
Definition __iadd__ (NumGlobalRows : Z) (self other : loc) : M V loc :=
  let! o := getMatrix other in
  do! (if Filled o then ret () else callFillComplete other) in
  let! s := getMatrix self in
  let! o := getMatrix other in
  do! (if Filled s && (NumGlobalNonzeros o >? NumGlobalNonzeros s)
   then
     if (NumGlobalRows =? 0)%Z then raise ZeroDivisionError
     else
     let tempMatrix := Epetra.empty in
     let r1 := Add o tempMatrix in
     do! (if bool_decide (r1.2 ≠ 0%Z)
      then warn "EpetraExt.Add returned error code in __iadd__, 1"
      else ret ()) in
     let! s := getMatrix self in
     let r2 := Add s r1.1 in
     do! (if bool_decide (r2.2 ≠ 0%Z)
      then warn "EpetraExt.Add returned error code in __iadd__, 2"
      else ret ()) in
     setMatrix self r2.1
   else
     let r := Add o s in
     do! setMatrix self r.1 in
     if bool_decide (r.2 ≠ 0%Z)
     then warn "EpetraExt.Add returned error code in __iadd__"
     else ret ()) in
  ret self.

(** The tail the two branches of [_add] share, as [combine]: [x] with
    [rows_x] rows is copied, [y] with [rows_y] rows is scaled. *)
Definition combine (rows_x rows_y : Z) (x y : loc) (sign : V) : M V loc :=
  let! tempMatrix := copy rows_x x in
  let! scaled := __mul__scalar rows_y y sign in
  do! __iadd__ rows_x tempMatrix scaled in
  ret tempMatrix.

(** [_add]; [rows_self] and [rows_other] are the row counts of the two
    operands. *)
Definition _add (rows_self rows_other : Z) (self : loc) (other : operand V)
    (sign : V) : M V loc :=
  do! fillIfNotFilled self in
  match other with
  | OMatrix other =>
      do! fillIfNotFilled other in
      let! s := getMatrix self in
      let! o := getMatrix other in
      if NumGlobalNonzeros s >? NumGlobalNonzeros o then
        combine rows_self rows_other self other sign
      else
        combine rows_other rows_self other self sign
  | _ => raise AttributeError   (* [other.matrix] of a number *)
  end.

(** [__add__] *)
Definition __add__ (rows_self rows_other : Z) (self : loc)
    (other : operand V) : M V loc :=
  if is_0 other then ret self else _add rows_self rows_other self other vone.

(** [__sub__] *)
Definition __sub__ (rows_self rows_other : Z) (self : loc)
    (other : operand V) : M V loc :=
  if is_0 other then ret self
  else _add rows_self rows_other self other (vopp vone).

End Rows.
End Rows.

(** ** Row numbers in int64

    [_cellIDsToGlobalRowIDs] computes on numpy arrays of dtype int64: the
    product and the sum keep the low 64 bits of their results. *)
Module Wrapping.
Import MeshMatrix.

Definition blocks (M : positive) (stride : Z) (IDs : list Z) : list Z :=
  e ← numerix.arange (Pos.to_nat M);
  (λ c, int64 (c + int64 (e * stride)))%Z <$> IDs.

Definition _cellIDsToGlobalRowIDs (self : _TrilinosMeshMatrix)
    (IDs : list Z) : list Z :=
  blocks (numberOfEquations self) (globalNumberOfCells (mesh self)) IDs.

End Wrapping.

(** Whether the step that took a matrix from [before] to [after] optimized
    its storage: the storage was not optimized before and is after. *)
Definition optimizes {V} (before after : Epetra.CrsMatrix V) : bool :=
  negb (Epetra.StorageOptimized before) && Epetra.StorageOptimized after.

(** * Properties *)

(** ** The library operations *)

Section EpetraFacts.
Context {V : Type} `{Scalar V}.
Import Epetra.

Lemma targeting_cons (p : Z * Z) (t : Z * Z * V) (ts : list (Z * Z * V)) :
  targeting p (t :: ts) =
  if decide (t.1 = p) then t.2 :: targeting p ts else targeting p ts.
Proof.
  unfold targeting. rewrite filter_cons. by destruct (decide (t.1 = p)).
Qed.

Lemma write1_lookup (f : V → V → V) (acc : gmap (Z * Z) V * Z)
    (t : Z * Z * V) (p : Z * Z) :
  (write1 f acc t).1 !! p =
  if decide (t.1 = p) then (λ x, f x t.2) <$> acc.1 !! p
  else acc.1 !! p.
Proof.
  unfold write1. destruct (acc.1 !! t.1) as [x|] eqn:E; simpl.
  - destruct (decide (t.1 = p)) as [<-|Hne].
    + rewrite lookup_insert_eq, E. done.
    + by rewrite lookup_insert_ne.
  - destruct (decide (t.1 = p)) as [<-|Hne]; [by rewrite E|done].
Qed.

Lemma write1_code (f : V → V → V) (acc : gmap (Z * Z) V * Z) (t : Z * Z * V) :
  (write1 f acc t).2 =
  if decide (is_Some (acc.1 !! t.1)) then acc.2 else 2%Z.
Proof.
  unfold write1. by destruct (acc.1 !! t.1).
Qed.

(** A frozen structure after a batch of writes: each stored position has
    received, in order, the values sent to it; nothing else changed. *)
Lemma foldl_write1_lookup (f : V → V → V) (ts : list (Z * Z * V))
    (acc : gmap (Z * Z) V * Z) (p : Z * Z) :
  (foldl (write1 f) acc ts).1 !! p =
  (λ x, foldl f x (targeting p ts)) <$> acc.1 !! p.
Proof.
  revert acc. induction ts as [|t ts IH]; intros acc; simpl.
  - by destruct (acc.1 !! p).
  - rewrite IH, write1_lookup, targeting_cons.
    destruct (decide (t.1 = p)); [|done].
    by destruct (acc.1 !! p).
Qed.

(** The code is non-zero exactly when it was already, or when some value
    of the batch had no position. *)
Lemma foldl_write1_code (f : V → V → V) (ts : list (Z * Z * V))
    (acc : gmap (Z * Z) V * Z) :
  (foldl (write1 f) acc ts).2 ≠ 0%Z ↔
  acc.2 ≠ 0%Z ∨ ∃ t, t ∈ ts ∧ acc.1 !! t.1 = None.
Proof.
  revert acc. induction ts as [|t ts IH]; intros acc; simpl.
  - split; [by left|]. intros [?|(t & Ht & _)]; [done|]. by inversion Ht.
  - rewrite IH, write1_code. split.
    + intros [Hc|(t' & Ht' & Hn)].
      * destruct (decide (is_Some (acc.1 !! t.1))) as [|Hn]; [by left|].
        right. exists t. split; [left|].
        by apply eq_None_not_Some.
      * right. exists t'. split; [by right|].
        rewrite write1_lookup in Hn.
        destruct (decide (t.1 = t'.1)) as [e|]; [|done].
        rewrite <- e in *. by destruct (acc.1 !! t.1).
    + intros [Hc|(t' & Ht' & Hn)].
      * destruct (decide (is_Some (acc.1 !! t.1))) as [|Hn]; [by left|].
        by left.
      * apply elem_of_cons in Ht' as [->|Ht'].
        -- left. rewrite decide_False; [done|]. rewrite Hn. by intros [? ?].
        -- right. exists t'. split; [done|].
           rewrite write1_lookup.
           destruct (decide (t.1 = t'.1)) as [e|]; [|done].
           by rewrite Hn.
Qed.

Lemma insert1_lookup (vals : gmap (Z * Z) V) (t : Z * Z * V) (p : Z * Z) :
  insert1 vals t !! p =
  if decide (t.1 = p)
  then Some match vals !! p with Some x => vadd x t.2 | None => t.2 end
  else vals !! p.
Proof.
  unfold insert1. destruct (decide (t.1 = p)) as [<-|Hne].
  - by rewrite lookup_partial_alter_eq.
  - by rewrite lookup_partial_alter_ne.
Qed.

Lemma size_Scale s (m : CrsMatrix V) :
  NumGlobalNonzeros (Scale s m) = NumGlobalNonzeros m.
Proof. unfold NumGlobalNonzeros, Scale. simpl. apply map_size_fmap. Qed.

End EpetraFacts.

(** ** Running the wrapper's methods *)

Section WrapperFacts.
Context {V : Type} `{Scalar V}.
Import Epetra.
Implicit Types (w : World V) (m : CrsMatrix V) (self other l : loc).

Lemma bind_Ok {A B} (c : M V A) (k : A → M V B) w a w' :
  c w = (Ok a, w') → bind c k w = k a w'.
Proof. unfold bind. by intros ->. Qed.

Lemma bind_Raise {A B} (c : M V A) (k : A → M V B) w e w' :
  c w = (Raise e, w') → bind c k w = (Raise e, w').
Proof. unfold bind. by intros ->. Qed.

Ltac run_with H := rewrite (bind_Ok _ _ _ _ _ H).

Lemma getMatrix_run w self m :
  heap w !! self = Some m → getMatrix self w = (Ok m, w).
Proof. unfold getMatrix. by intros ->. Qed.

Lemma fillIfNotFilled_run w self m :
  heap w !! self = Some m →
  fillIfNotFilled self w = (Ok (), fill self m w).
Proof.
  intros Hm. unfold fillIfNotFilled, fill.
  rewrite (bind_Ok _ _ _ _ _ (getMatrix_run _ _ _ Hm)).
  destruct (Filled m); [done|].
  unfold callFillComplete.
  by rewrite (bind_Ok _ _ _ _ _ (getMatrix_run _ _ _ Hm)).
Qed.

Lemma Filled_filled m : Filled (filled m) = true.
Proof. unfold filled. by destruct (Filled m) eqn:E. Qed.

Lemma Values_filled m : Values (filled m) = Values m.
Proof. unfold filled. by destruct (Filled m). Qed.

Lemma filled_Filled m : Filled m = true → filled m = m.
Proof. unfold filled. by intros ->. Qed.

Lemma fill_Filled self m w : Filled m = true → fill self m w = w.
Proof. unfold fill. by intros ->. Qed.

Lemma heap_fill_eq w self m :
  heap w !! self = Some m → heap (fill self m w) !! self = Some (filled m).
Proof.
  intros Hm. unfold fill, filled. destruct (Filled m); [done|].
  simpl. by rewrite lookup_insert_eq.
Qed.

Lemma heap_fill_ne w self m l :
  l ≠ self → heap (fill self m w) !! l = heap w !! l.
Proof.
  intros Hne. unfold fill. destruct (Filled m); [done|].
  simpl. by rewrite lookup_insert_ne.
Qed.

Lemma warnings_fill w self m : warnings (fill self m w) = warnings w.
Proof. unfold fill. by destruct (Filled m). Qed.

Lemma fresh_heap_ne w l m :
  heap w !! l = Some m → l ≠ fresh (dom (heap w)).
Proof.
  intros Hl ->. apply (is_fresh (dom (heap w))).
  apply elem_of_dom. eauto.
Qed.

Lemma fresh_insert_ne w l m t X :
  heap w !! l = Some m → l ≠ fresh (dom (<[t := X]> (heap w))).
Proof.
  intros Hl e. apply (is_fresh (dom (<[t := X]> (heap w)))).
  rewrite <- e. apply elem_of_dom.
  destruct (decide (l = t)) as [->|Hne].
  - rewrite lookup_insert_eq. eauto.
  - rewrite lookup_insert_ne by done. eauto.
Qed.


Lemma copy_run w self m :
  heap w !! self = Some m →
  let w1 := fill self m w in
  let l := fresh (dom (heap w1)) in
  copy self w =
  (Ok l, mkWorld (<[l := filled m]> (heap w1)) (warnings w1) (calls w1)).
Proof.
  intros Hm w1 l. unfold copy.
  run_with (fillIfNotFilled_run _ _ _ Hm).
  by run_with (getMatrix_run _ _ _ (heap_fill_eq _ _ _ Hm)).
Qed.

(** [__mul__] by a scalar, on a matrix that is already filled. *)
Lemma mul_scalar_run w self m s :
  heap w !! self = Some m → Filled m = true →
  let l := fresh (dom (heap w)) in
  __mul__scalar self s w =
  (Ok l, mkWorld (<[l := Scale s m]> (<[l := m]> (heap w)))
                 (warnings w) (calls w)).
Proof.
  intros Hm HF l. unfold __mul__scalar.
  run_with (copy_run _ _ _ Hm).
  rewrite fill_Filled, filled_Filled by done. fold l.
  erewrite bind_Ok; last first.
  { apply getMatrix_run. simpl. apply lookup_insert_eq. }
  done.
Qed.

(** [__iadd__] when the receiver does not have fewer nonzeros than a
    filled operand: the operand is summed into the receiver in place. *)
Lemma iadd_run w self other s o :
  heap w !! self = Some s → heap w !! other = Some o →
  Filled o = true →
  Filled s && Nat.ltb (NumGlobalNonzeros s) (NumGlobalNonzeros o) = false →
  let r := Add o s in
  __iadd__ self other w =
  (Ok self,
   mkWorld (<[self := r.1]> (heap w))
     (if bool_decide (r.2 ≠ 0%Z)
      then "EpetraExt.Add returned error code in __iadd__"%string
             :: warnings w
      else warnings w)
     (calls w)).
Proof.
  intros Hs Ho HF Hc r. unfold __iadd__.
  run_with (getMatrix_run _ _ _ Ho). rewrite HF.
  unfold bind at 1. unfold ret at 1.
  run_with (getMatrix_run _ _ _ Hs).
  run_with (getMatrix_run _ _ _ Ho).
  rewrite Hc. fold r.
  unfold bind, setMatrix, warn, ret. simpl.
  by destruct (bool_decide (r.2 ≠ 0%Z)).
Qed.

Lemma combine_run w x y X Y sign :
  heap w !! x = Some X → heap w !! y = Some Y →
  Filled X = true → Filled Y = true →
  Nat.ltb (NumGlobalNonzeros X) (NumGlobalNonzeros Y) = false →
  let t := fresh (dom (heap w)) in
  let t2 := fresh (dom (<[t := X]> (heap w))) in
  let r := Add (Scale sign Y) X in
  combine x y sign w =
  (Ok t,
   mkWorld
     (<[t := r.1]> (<[t2 := Scale sign Y]> (<[t2 := Y]> (<[t := X]> (heap w)))))
     (if bool_decide (r.2 ≠ 0%Z)
      then "EpetraExt.Add returned error code in __iadd__"%string
             :: warnings w
      else warnings w)
     (calls w)).
Proof.
  intros Hx Hy HX HY Hnnz t t2 r.
  assert (Hxt : x ≠ t) by by eapply fresh_heap_ne.
  assert (Hyt : y ≠ t) by by eapply fresh_heap_ne.
  assert (Htt2 : t ≠ t2).
  { intros e. apply (is_fresh (dom (<[t := X]> (heap w)))).
    fold t2. rewrite <- e. apply elem_of_dom. rewrite lookup_insert_eq. eauto. }
  unfold combine.
  run_with (copy_run _ _ _ Hx).
  rewrite fill_Filled, filled_Filled by done. fold t.
  erewrite bind_Ok; last first.
  { apply mul_scalar_run with (m := Y); [|done].
    simpl. by rewrite lookup_insert_ne. }
  simpl. fold t2.
  erewrite bind_Ok; last first.
  { apply iadd_run with (s := X) (o := Scale sign Y); simpl.
    - rewrite !lookup_insert_ne by done. apply lookup_insert_eq.
    - apply lookup_insert_eq.
    - done.
    - rewrite HX, size_Scale. simpl. done. }
  done.
Qed.

Lemma dom_heap_fill w self m :
  heap w !! self = Some m → dom (heap (fill self m w)) = dom (heap w).
Proof.
  intros Hm. unfold fill. destruct (Filled m); [done|]. simpl.
  apply dom_insert_lookup_L. eauto.
Qed.

(** The two guards at the head of [_add]: both operands end up filled,
    with their values untouched; this also covers [self is other]. *)
Lemma fill_both_run {T} (k : M V T) w a b A B :
  heap w !! a = Some A → heap w !! b = Some B →
  ∃ w2 A2 B2,
    bind (fillIfNotFilled a) (λ _, bind (fillIfNotFilled b) (λ _, k)) w
      = k w2 ∧
    heap w2 !! a = Some A2 ∧ heap w2 !! b = Some B2 ∧
    Filled A2 = true ∧ Filled B2 = true ∧
    Values A2 = Values A ∧ Values B2 = Values B ∧
    dom (heap w2) = dom (heap w) ∧ warnings w2 = warnings w ∧
    (∀ l, l ≠ a → l ≠ b → heap w2 !! l = heap w !! l).
Proof.
  intros Ha Hb.
  run_with (fillIfNotFilled_run _ _ _ Ha).
  destruct (decide (a = b)) as [->|Hne].
  - assert (A = B) as -> by congruence.
    pose proof (heap_fill_eq _ _ _ Hb) as Hb1.
    run_with (fillIfNotFilled_run _ _ _ Hb1).
    rewrite (fill_Filled b (filled B)) by apply Filled_filled.
    exists (fill b B w), (filled B), (filled B).
    repeat split; auto using Filled_filled, Values_filled, dom_heap_fill,
      warnings_fill.
    intros l Hl _. by apply heap_fill_ne.
  - assert (Hb1 : heap (fill a A w) !! b = Some B)
      by by rewrite heap_fill_ne.
    run_with (fillIfNotFilled_run _ _ _ Hb1).
    exists (fill b B (fill a A w)), (filled A), (filled B).
    repeat split; auto using Filled_filled, Values_filled.
    + rewrite heap_fill_ne by done. by apply heap_fill_eq.
    + by apply heap_fill_eq.
    + rewrite dom_heap_fill by done. by apply dom_heap_fill.
    + by rewrite !warnings_fill.
    + intros l Hla Hlb. by rewrite !heap_fill_ne.
Qed.

Lemma _add_run w a b A B sign :
  heap w !! a = Some A → heap w !! b = Some B →
  ∃ t w' R,
    _add a (OMatrix b) sign w = (Ok t, w') ∧
    heap w !! t = None ∧
    heap w' !! t = Some R ∧ Filled R = true ∧
    Values R = added sign (Values A) (Values B) ∧
    (∃ A', heap w' !! a = Some A' ∧ Filled A' = true ∧
           Values A' = Values A) ∧
    (∃ B', heap w' !! b = Some B' ∧ Filled B' = true ∧
           Values B' = Values B) ∧
    (dom (Values A) ⊆ dom (Values B) ∨ dom (Values B) ⊆ dom (Values A) →
     warnings w' = warnings w) ∧
    (∀ l X, heap w !! l = Some X → l ≠ a → l ≠ b →
            heap w' !! l = Some X).
Proof.
  intros Ha Hb. unfold _add.
  destruct (fill_both_run
    (bind (getMatrix a) (λ s, bind (getMatrix b) (λ o,
       if Nat.ltb (NumGlobalNonzeros o) (NumGlobalNonzeros s)
       then combine a b sign else combine b a sign)))
    w a b A B Ha Hb)
    as (w2 & A2 & B2 & Hrun & Ha2 & Hb2 & HFA & HFB & HVA & HVB & Hdom
        & Hwarn & Hother).
  unfold combine in Hrun. rewrite Hrun. clear Hrun.
  run_with (getMatrix_run _ _ _ Ha2).
  run_with (getMatrix_run _ _ _ Hb2).
  unfold added, NumGlobalNonzeros. rewrite HVA, HVB.
  assert (Hta : a ≠ fresh (dom (heap w2))) by by eapply fresh_heap_ne.
  assert (Htb : b ≠ fresh (dom (heap w2))) by by eapply fresh_heap_ne.
  destruct (Nat.ltb (size (Values B)) (size (Values A))) eqn:Hlt.
  - pose proof (combine_run w2 a b A2 B2 sign Ha2 Hb2 HFA HFB) as Hc.
    simpl in Hc. unfold combine in Hc. rewrite Hc; clear Hc.
    2:{ unfold NumGlobalNonzeros. rewrite HVA, HVB.
        apply Nat.ltb_ge. apply Nat.ltb_lt in Hlt. lia. }
    set (t := fresh (dom (heap w2))) in *.
    set (t2 := fresh (dom (<[t:=A2]> (heap w2)))).
    assert (Ht2a : a ≠ t2) by by eapply fresh_insert_ne.
    assert (Ht2b : b ≠ t2) by by eapply fresh_insert_ne.
    eexists t, _, _. split; [reflexivity|]. simpl.
    split. { apply not_elem_of_dom. rewrite <- Hdom. apply is_fresh. }
    split. { apply lookup_insert_eq. }
    unfold Add. simpl. rewrite HFA, HFB. simpl.
    split; [done|]. split. { by rewrite HVA, HVB. }
    split. { exists A2. by rewrite !lookup_insert_ne by done. }
    split. { exists B2. by rewrite !lookup_insert_ne by done. }
    split.
    { intros Hsub. rewrite dom_fmap_L, HVA, HVB.
    assert (Hs : dom (Values B) ⊆ dom (Values A)).
    { destruct Hsub as [Hsub|Hsub]; [|done].
      apply Nat.ltb_lt in Hlt.
      pose proof (subseteq_size _ _ Hsub) as Hle.
      rewrite !size_dom in Hle. lia. }
    rewrite (bool_decide_eq_true_2 _ Hs).
    by rewrite bool_decide_eq_false_2 by (by intros ?). }
    intros l X Hl Hla Hlb. rewrite <- Hother in Hl by done.
    assert (l ≠ t) by by eapply fresh_heap_ne.
    assert (l ≠ t2) by by eapply fresh_insert_ne.
    by rewrite !lookup_insert_ne by done.
  - pose proof (combine_run w2 b a B2 A2 sign Hb2 Ha2 HFB HFA) as Hc.
    simpl in Hc. unfold combine in Hc. rewrite Hc; clear Hc.
    2:{ unfold NumGlobalNonzeros. by rewrite HVA, HVB. }
    set (t := fresh (dom (heap w2))) in *.
    set (t2 := fresh (dom (<[t:=B2]> (heap w2)))).
    assert (Ht2a : a ≠ t2) by by eapply fresh_insert_ne.
    assert (Ht2b : b ≠ t2) by by eapply fresh_insert_ne.
    eexists t, _, _. split; [reflexivity|]. simpl.
    split. { apply not_elem_of_dom. rewrite <- Hdom. apply is_fresh. }
    split. { apply lookup_insert_eq. }
    unfold Add. simpl. rewrite HFA, HFB. simpl.
    split; [done|]. split. { by rewrite HVA, HVB. }
    split. { exists A2. by rewrite !lookup_insert_ne by done. }
    split. { exists B2. by rewrite !lookup_insert_ne by done. }
    split.
    { intros Hsub. rewrite dom_fmap_L, HVA, HVB.
    assert (Hs : dom (Values A) ⊆ dom (Values B)).
    { destruct Hsub as [Hsub|Hsub]; [done|].
      apply Nat.ltb_ge in Hlt.
      assert (dom (Values B) = dom (Values A)) as ->; [|done].
      apply set_subseteq_size_eq; [done|].
      rewrite !size_dom. lia. }
    rewrite (bool_decide_eq_true_2 _ Hs).
    by rewrite bool_decide_eq_false_2 by (by intros ?). }
    intros l X Hl Hla Hlb. rewrite <- Hother in Hl by done.
    assert (l ≠ t) by by eapply fresh_heap_ne.
    assert (l ≠ t2) by by eapply fresh_insert_ne.
    by rewrite !lookup_insert_ne by done.
Qed.

End WrapperFacts.

(** ** The row count *)

Section RowsFacts.
Context {V : Type} `{Scalar V}.
Import Epetra.
Implicit Types (w : World V) (m : CrsMatrix V) (self other l : loc).

(** With rows the divisions succeed and the methods are those without
    the row count. *)
Lemma Rows_copy_eq (rows : Z) self :
  rows ≠ 0%Z → Rows.copy rows self = (copy self : M V loc).
Proof.
  intros Hr. apply Z.eqb_neq in Hr. unfold Rows.copy, copy.
  by rewrite Hr.
Qed.

Lemma Rows_mul_scalar_eq (rows : Z) self (s : V) :
  rows ≠ 0%Z → Rows.__mul__scalar rows self s = __mul__scalar self s.
Proof.
  intros Hr. unfold Rows.__mul__scalar, __mul__scalar.
  by rewrite Rows_copy_eq.
Qed.

Lemma Rows_iadd_eq (rows : Z) self other :
  rows ≠ 0%Z →
  Rows.__iadd__ rows self other = (__iadd__ self other : M V loc).
Proof.
  intros Hr. apply Z.eqb_neq in Hr. unfold Rows.__iadd__, __iadd__.
  by rewrite Hr.
Qed.

Lemma Rows_combine_eq (rows_x rows_y : Z) (x y : loc) (sign : V) :
  rows_x ≠ 0%Z → rows_y ≠ 0%Z →
  Rows.combine rows_x rows_y x y sign = combine x y sign.
Proof.
  intros Hx Hy. unfold Rows.combine, combine.
  rewrite Rows_copy_eq, Rows_mul_scalar_eq by done.
  apply Z.eqb_neq in Hx. unfold Rows.__iadd__, __iadd__.
  by rewrite Hx.
Qed.

Lemma Rows_add_eq (rows_self rows_other : Z) self (other : operand V)
    (sign : V) :
  rows_self ≠ 0%Z → rows_other ≠ 0%Z →
  Rows._add rows_self rows_other self other sign = _add self other sign.
Proof.
  intros Hs Ho. unfold Rows._add, _add.
  destruct other as [z|x|other]; [done..|].
  rewrite !Rows_combine_eq by done. reflexivity.
Qed.

(** Without rows [copy] fills the matrix and raises. *)
Lemma Rows_copy_zero w self m :
  heap w !! self = Some m →
  Rows.copy 0 self w = (Raise ZeroDivisionError, fill self m w).
Proof.
  intros Hm. unfold Rows.copy.
  rewrite (bind_Ok _ _ _ _ _ (fillIfNotFilled_run _ _ _ Hm)).
  by rewrite (bind_Ok _ _ _ _ _
                (getMatrix_run _ _ _ (heap_fill_eq _ _ _ Hm))).
Qed.

Lemma Rows_mul_scalar_zero w self m (s : V) :
  heap w !! self = Some m →
  Rows.__mul__scalar 0 self s w = (Raise ZeroDivisionError, fill self m w).
Proof.
  intros Hm. unfold Rows.__mul__scalar.
  by rewrite (bind_Raise _ _ _ _ _ (Rows_copy_zero _ _ _ Hm)).
Qed.




End RowsFacts.

(** ** Addition and subtraction of matrices *)

Section Addition.
Context {V : Type} `{Scalar V}.
Import Epetra.
Implicit Types (w : World V) (A B : CrsMatrix V).

Lemma lookup_added_le (sign : V) (VA VB : gmap (Z * Z) V) (p : Z * Z) :
  Nat.ltb (size VB) (size VA) = false →
  added sign VA VB !! p = sum_into (VB !! p) ((λ x, vmul x sign) <$> VA !! p).
Proof.
  intros Hlt. unfold added. rewrite Hlt, lookup_merge, lookup_fmap.
  by destruct (VB !! p), (VA !! p).
Qed.

Lemma lookup_added_gt (sign : V) (VA VB : gmap (Z * Z) V) (p : Z * Z) :
  Nat.ltb (size VB) (size VA) = true →
  added sign VA VB !! p = sum_into (VA !! p) ((λ x, vmul x sign) <$> VB !! p).
Proof.
  intros Hlt. unfold added. rewrite Hlt, lookup_merge, lookup_fmap.
  by destruct (VB !! p), (VA !! p).
Qed.

(** When the pattern of [A] lies within that of [B], both orders of the
    operands leave the same values. *)
Lemma added_comm (VA VB : gmap (Z * Z) V) :
  (∀ x y : V, vadd x y = vadd y x) →
  (∀ x : V, vmul x vone = x) →
  dom VA ⊆ dom VB →
  added vone VA VB = added vone VB VA.
Proof.
  intros Hcomm Hone Hsub.
  pose proof (subseteq_size _ _ Hsub) as Hle. rewrite !size_dom in Hle.
  apply map_eq. intros p.
  rewrite lookup_added_le by (apply Nat.ltb_ge; lia).
  destruct (Nat.ltb (size VA) (size VB)) eqn:Hlt.
  - by rewrite lookup_added_gt.
  - rewrite lookup_added_le by done.
    apply Nat.ltb_ge in Hlt.
    assert (Hdom : dom VA = dom VB).
    { apply set_subseteq_size_eq; [done|]. rewrite !size_dom. lia. }
    destruct (VA !! p) as [x|] eqn:Ex, (VB !! p) as [y|] eqn:Ey; simpl.
    + by rewrite !Hone, Hcomm.
    + apply elem_of_dom_2 in Ex. rewrite Hdom in Ex.
      apply elem_of_dom in Ex as [? Ex]. congruence.
    + apply elem_of_dom_2 in Ey. rewrite <- Hdom in Ey.
      apply elem_of_dom in Ey as [? Ey]. congruence.
    + done.
Qed.

Lemma dom_added_subset (sign : V) (VA VB : gmap (Z * Z) V) :
  dom VA ⊆ dom VB → dom (added sign VA VB) = dom VB.
Proof.
  intros Hsub.
  pose proof (subseteq_size _ _ Hsub) as Hle. rewrite !size_dom in Hle.
  apply set_eq. intros p. rewrite !elem_of_dom.
  rewrite lookup_added_le by (apply Nat.ltb_ge; lia).
  destruct (VB !! p) as [y|] eqn:Ey; simpl.
  - destruct (VA !! p); simpl; split; eauto.
  - destruct (VA !! p); simpl; split; intros [? ?]; done.
Qed.

(** The two orders of [_add], the pattern of the first operand inside
    that of the second. *)
Lemma add_both_orders_run w a b A B :
  (∀ x y : V, vadd x y = vadd y x) →
  (∀ x : V, vmul x vone = x) →
  heap w !! a = Some A → heap w !! b = Some B →
  dom (Values A) ⊆ dom (Values B) →
  ∃ r1 w1 R1 r2 w2 R2,
    _add a (OMatrix b) vone w = (Ok r1, w1) ∧
    _add b (OMatrix a) vone w1 = (Ok r2, w2) ∧
    heap w2 !! r1 = Some R1 ∧ heap w2 !! r2 = Some R2 ∧ r1 ≠ r2 ∧
    (∀ p x y, Values R1 !! p = Some x → Values R2 !! p = Some y → x = y) ∧
    dom (Values R1) = dom (Values B) ∧
    dom (Values R2) = dom (Values B) ∧
    warnings w2 = warnings w.
Proof.
  intros Hcomm Hone Ha Hb Hsub.
  destruct (_add_run w a b A B vone Ha Hb)
    as (r1 & w1 & R1 & Hrun1 & Hfresh1 & Hr1 & _ & HV1 & (A' & Ha' & _ & HVA)
        & (B' & Hb' & _ & HVB) & Hw1 & _).
  destruct (_add_run w1 b a B' A' vone Hb' Ha')
    as (r2 & w2 & R2 & Hrun2 & Hfresh2 & Hr2 & _ & HV2 & _ & _ & Hw2
        & Hframe).
  rewrite HVA, HVB in HV2, Hw2.
  exists r1, w1, R1, r2, w2, R2.
  assert (Hne : r1 ≠ r2) by congruence.
  assert (Hr1' : heap w2 !! r1 = Some R1).
  { apply Hframe; [done| |]; intros ->; congruence. }
  repeat split; try done.
  - intros p x y Hx Hy. rewrite HV1 in Hx. rewrite HV2 in Hy.
    rewrite added_comm in Hx by done. congruence.
  - rewrite HV1. by apply dom_added_subset.
  - rewrite HV2, <- added_comm by done. by apply dom_added_subset.
  - rewrite Hw2, Hw1 by tauto. done.
Qed.

(** C4: for two matrices [A] and [B] that have rows, the pattern of [A]
    inside that of [B], [A + B] followed by [B + A] returns two new
    matrices that store the same value at every position they share;
    both have exactly the pattern of [B] and no warning is issued.  The
    values are added commutatively and scaling by one changes nothing,
    as for float64. *)
Theorem add_commutes_on_nested_patterns w a b A B (rows_a rows_b : Z) :
  (∀ x y : V, vadd x y = vadd y x) →
  (∀ x : V, vmul x vone = x) →
  rows_a ≠ 0%Z → rows_b ≠ 0%Z →
  heap w !! a = Some A → heap w !! b = Some B →
  dom (Values A) ⊆ dom (Values B) →
  ∃ r1 w1 R1 r2 w2 R2,
    Rows.__add__ rows_a rows_b a (OMatrix b) w = (Ok r1, w1) ∧
    Rows.__add__ rows_b rows_a b (OMatrix a) w1 = (Ok r2, w2) ∧
    heap w2 !! r1 = Some R1 ∧ heap w2 !! r2 = Some R2 ∧ r1 ≠ r2 ∧
    (∀ p x y, Values R1 !! p = Some x → Values R2 !! p = Some y → x = y) ∧
    dom (Values R1) = dom (Values B) ∧
    dom (Values R2) = dom (Values B) ∧
    warnings w2 = warnings w.
Proof.
  intros Hcomm Hone Hra Hrb Ha Hb Hsub. unfold Rows.__add__. simpl.
  rewrite (Rows_add_eq rows_a rows_b) by done.
  rewrite (Rows_add_eq rows_b rows_a) by done.
  by apply (add_both_orders_run w a b A B).
Qed.

End Addition.

(** ** Insertion, accumulation, replacement and the lifecycle *)

Section Assembly.
Context {V : Type} `{Scalar V}.
Import Epetra.
Implicit Types (w : World V) (m : CrsMatrix V) (self : loc).

Lemma addAt_unfilled_run w self m vector id1 id2 :
  heap w !! self = Some m → Filled m = false →
  addAt self vector id1 id2 w =
  (Ok (), mkWorld (<[self := InsertGlobalValues id1 id2 vector m]> (heap w))
                  (warnings w) (calls w)).
Proof.
  intros Hm HF. unfold addAt.
  rewrite (bind_Ok _ _ _ _ _ (getMatrix_run _ _ _ Hm)). by rewrite HF.
Qed.

Lemma addAt_filled_run w self m vector id1 id2 :
  heap w !! self = Some m → Filled m = true →
  let r := SumIntoGlobalValues id1 id2 vector m in
  addAt self vector id1 id2 w =
  (Ok (), mkWorld (<[self := r.1]> (heap w))
                  (if bool_decide (r.2 ≠ 0%Z)
                   then SumWarning :: warnings w else warnings w)
                  (calls w)).
Proof.
  intros Hm HF r. unfold addAt.
  rewrite (bind_Ok _ _ _ _ _ (getMatrix_run _ _ _ Hm)). rewrite HF.
  subst r. unfold bind, setMatrix, warn, ret, SumWarning. simpl.
  by destruct (bool_decide _).
Qed.

Lemma put_filled_run w self m vector id1 id2 :
  heap w !! self = Some m → Filled m = true →
  let r := ReplaceGlobalValues id1 id2 vector m in
  put self vector id1 id2 w =
  (Ok (), mkWorld (<[self := r.1]> (heap w))
                  (if bool_decide (r.2 ≠ 0%Z)
                   then ReplaceWarning :: warnings w else warnings w)
                  (calls w)).
Proof.
  intros Hm HF r. unfold put.
  rewrite (bind_Ok _ _ _ _ _ (getMatrix_run _ _ _ Hm)). rewrite HF.
  subst r. unfold bind, setMatrix, warn, ret, ReplaceWarning. simpl.
  by destruct (bool_decide _).
Qed.

Lemma put_empty_run w self m vector id1 id2 :
  heap w !! self = Some m → Filled m = false →
  NumGlobalNonzeros m = 0%nat →
  put self vector id1 id2 w =
  (Ok (), mkWorld (<[self := InsertGlobalValues id1 id2 vector m]> (heap w))
                  (warnings w) (calls w)).
Proof.
  intros Hm HF Hn. unfold put.
  rewrite (bind_Ok _ _ _ _ _ (getMatrix_run _ _ _ Hm)). rewrite HF.
  by rewrite bool_decide_eq_true_2.
Qed.

Lemma put_nonempty_run w self m vector id1 id2 :
  heap w !! self = Some m → Filled m = false →
  NumGlobalNonzeros m ≠ 0%nat →
  let m1 := InsertGlobalValues id1 id2 (numerix.zeros (length vector)) m in
  let r := ReplaceGlobalValues id1 id2 vector (FillComplete m1) in
  put self vector id1 id2 w =
  (Ok (), mkWorld (<[self := r.1]> (heap w))
                  (if bool_decide (r.2 ≠ 0%Z)
                   then ReplaceWarning :: warnings w else warnings w)
                  (CallFillComplete self :: calls w)).
Proof.
  intros Hm HF Hn m1 r. unfold put.
  rewrite (bind_Ok _ _ _ _ _ (getMatrix_run _ _ _ Hm)). rewrite HF.
  rewrite bool_decide_eq_false_2 by done. fold m1.
  unfold bind at 1. unfold setMatrix at 1.
  erewrite bind_Ok; last first.
  { apply fillIfNotFilled_run with (m := m1). simpl. apply lookup_insert_eq. }
  unfold fill. replace (Filled m1) with false by done. simpl.
  erewrite bind_Ok; last first.
  { apply getMatrix_run. simpl. apply lookup_insert_eq. }
  subst r. unfold bind, setMatrix, warn, ret, ReplaceWarning. simpl.
  rewrite !insert_insert_eq.
  by destruct (bool_decide _).
Qed.

Lemma finalize_run w self m :
  heap w !! self = Some m →
  finalize self w =
  (Ok (), mkWorld (<[self := FillComplete m]> (heap w)) (warnings w)
            (CallOptimizeStorage self :: calls (fill self m w))).
Proof.
  intros Hm. unfold finalize.
  rewrite (bind_Ok _ _ _ _ _ (fillIfNotFilled_run _ _ _ Hm)).
  unfold callOptimizeStorage.
  rewrite (bind_Ok _ _ _ _ _
             (getMatrix_run _ _ _ (heap_fill_eq _ _ _ Hm))).
  unfold bind, log, setMatrix. simpl. rewrite warnings_fill.
  f_equal. f_equal.
  unfold fill, filled, OptimizeStorage, FillComplete.
  destruct (Filled m) eqn:HF; simpl.
  - by rewrite HF.
  - by rewrite insert_insert_eq.
Qed.

Lemma count_calls_cons c c' l :
  count_calls c (c' :: l) =
  if decide (c' = c) then S (count_calls c l) else count_calls c l.
Proof.
  unfold count_calls. rewrite filter_cons. by destruct (decide (c' = c)).
Qed.

Lemma calls_fill_other c w self m :
  c ≠ CallFillComplete self →
  count_calls c (calls (fill self m w)) = count_calls c (calls w).
Proof.
  intros Hc. unfold fill. destruct (Filled m); [done|]. simpl.
  rewrite count_calls_cons. by rewrite decide_False by done.
Qed.

Lemma calls_fill_le c w self m :
  count_calls c (calls (fill self m w)) ≤ S (count_calls c (calls w)).
Proof.
  unfold fill. destruct (Filled m); [lia|]. simpl.
  rewrite count_calls_cons. destruct (decide _); lia.
Qed.

(** The cast leaves the numbers of an int32 as they are. *)
Lemma int32_in_range (z : Z) : in_int32 z → int32 z = z.
Proof.
  unfold in_int32, int32, wrap. intros Hz.
  change (2 ^ (32 - 1))%Z with (2 ^ 31)%Z.
  rewrite Z.mod_small; lia.
Qed.

Lemma astype_int32_in_range (id : Cast.indices) :
  Forall in_int32 (Cast.values id) →
  Cast.astype_int32 id = Cast.values id.
Proof.
  intros Hid. unfold Cast.astype_int32. destruct (Cast.is_int64 id); [|done].
  induction Hid as [|z l Hz _ IH]; [done|].
  by rewrite fmap_cons, IH, int32_in_range.
Qed.

(** [addAt] on a FILLED matrix when a value of the batch has no
    position. *)
Lemma addAt_filled_missing_run w self m vector id1 id2 :
  heap w !! self = Some m → Filled m = true →
  (∃ t, t ∈ triples id1 id2 vector ∧ Values m !! t.1 = None) →
  ∃ m',
    addAt self vector id1 id2 w =
      (Ok (), mkWorld (<[self := m']> (heap w))
                      (SumWarning :: warnings w) (calls w)) ∧
    Filled m' = true ∧
    ∀ p, Values m' !! p =
         (λ x, foldl vadd x (targeting p (triples id1 id2 vector)))
           <$> Values m !! p.
Proof.
  intros Hm HF Hmiss.
  rewrite (addAt_filled_run _ _ _ _ _ _ Hm HF).
  eexists. split; [|split].
  - f_equal. f_equal.
    rewrite bool_decide_eq_true_2; [done|].
    unfold SumIntoGlobalValues, writeAll. simpl.
    apply foldl_write1_code. by right.
  - done.
  - intros p. unfold SumIntoGlobalValues, writeAll. simpl.
    by rewrite foldl_write1_lookup.
Qed.

(** C2: [addAt] on a FILLED matrix with a batch that targets at least
    one position without a structural entry returns normally; every
    stored position has received, in batch order, exactly the values
    sent to it; positions without an entry stay unstored, so the
    offending values are dropped; and exactly one warning is added.  The
    indices are those of an int32, which the cast at the head of [addAt]
    leaves as they are, whether the index arguments are int64 arrays or
    not. *)
Theorem addAt_filled_drops_and_warns_once w self m vector
    (id1 id2 : Cast.indices) :
  heap w !! self = Some m → Filled m = true →
  Forall in_int32 (Cast.values id1) → Forall in_int32 (Cast.values id2) →
  (∃ t, t ∈ triples (Cast.values id1) (Cast.values id2) vector ∧
        Values m !! t.1 = None) →
  ∃ m',
    Cast.addAt self vector id1 id2 w =
      (Ok (), mkWorld (<[self := m']> (heap w))
                      (SumWarning :: warnings w) (calls w)) ∧
    Filled m' = true ∧
    ∀ p, Values m' !! p =
         (λ x, foldl vadd x
                 (targeting p
                    (triples (Cast.values id1) (Cast.values id2) vector)))
           <$> Values m !! p.
Proof.
  intros Hm HF Hid1 Hid2 Hmiss. unfold Cast.addAt.
  rewrite !astype_int32_in_range by done.
  by apply addAt_filled_missing_run.
Qed.

(** C3: [finalize] is idempotent.  Both calls return normally; after
    the first the matrix is FILLED with the values it had, and the second
    leaves every matrix exactly as the first left it: same structure,
    same values, same fill and storage state, and no warning.  The
    storage is optimized by at most one of the two calls (never by the
    second), and [FillComplete] is issued at most once. *)
Theorem finalize_idempotent w self m :
  heap w !! self = Some m →
  ∃ w1 w2 m1 m2,
    finalize self w = (Ok (), w1) ∧ finalize self w1 = (Ok (), w2) ∧
    heap w1 !! self = Some m1 ∧ heap w2 !! self = Some m2 ∧
    Filled m1 = true ∧ StorageOptimized m1 = true ∧
    Values m1 = Values m ∧
    m2 = m1 ∧ heap w2 = heap w1 ∧
    warnings w1 = warnings w ∧ warnings w2 = warnings w ∧
    (Nat.b2n (optimizes m m1) + Nat.b2n (optimizes m1 m2) ≤ 1)%nat ∧
    optimizes m1 m2 = false ∧
    count_calls (CallFillComplete self) (calls w2)
      ≤ S (count_calls (CallFillComplete self) (calls w)).
Proof.
  intros Hm.
  eexists _, _, (FillComplete m), (FillComplete m).
  split; [by apply finalize_run|].
  split. { apply finalize_run with (m := FillComplete m). simpl.
           apply lookup_insert_eq. }
  simpl. split; [apply lookup_insert_eq|].
  split; [apply lookup_insert_eq|].
  split; [done|]. split; [done|]. split; [done|]. split; [done|].
  split; [by rewrite insert_insert_eq|]. split; [done|]. split; [done|].
  split. { unfold optimizes. simpl. destruct (StorageOptimized m); simpl; lia. }
  split; [done|].
  rewrite !count_calls_cons.
  rewrite !(decide_False (P := CallOptimizeStorage self = CallFillComplete self))
    by done.
  apply calls_fill_le.
Qed.

(** C10: [A + 0], [0 + A] and [A - 0] with the int 0 return the receiver
    and leave every object as it was: no copy, no value changed, no
    [FillComplete].  With any other number on the right, [+] raises
    [AttributeError]. *)
Theorem add_zero_is_self_other_scalars_raise w self m (other : operand V) :
  heap w !! self = Some m →
  (∀ l, other ≠ OMatrix l) → is_0 other = false →
  __add__ self (OInt 0) w = (Ok self, w) ∧
  __radd__ self (OInt 0) w = (Ok self, w) ∧
  __sub__ self (OInt 0) w = (Ok self, w) ∧
  ∃ w', __add__ self other w = (Raise AttributeError, w').
Proof.
  intros Hm Hscalar Hnz. repeat split.
  unfold __add__, _add. rewrite Hnz.
  rewrite (bind_Ok _ _ _ _ _ (fillIfNotFilled_run _ _ _ Hm)).
  destruct other as [z|x|l]; [by eexists..|].
  by destruct (Hscalar l).
Qed.

(** One value written to a position that is stored. *)
Lemma writeAll_single (f : V → V → V) m (r c : Z) (v x : V) :
  Values m !! (r, c) = Some x →
  writeAll f [r] [c] [v] m =
  (mkCrs (Filled m) (StorageOptimized m) (<[(r, c) := f x v]> (Values m)),
   0%Z).
Proof. intros Hx. unfold writeAll, write1. simpl. by rewrite Hx. Qed.

(** One value written to a position that is not stored. *)
Lemma writeAll_single_missing (f : V → V → V) m (r c : Z) (v : V) :
  Values m !! (r, c) = None →
  writeAll f [r] [c] [v] m =
  (mkCrs (Filled m) (StorageOptimized m) (Values m), 2%Z).
Proof. intros Hx. unfold writeAll, write1. simpl. by rewrite Hx. Qed.

Lemma Insert_single_lookup m (r c : Z) (v : V) :
  Values (InsertGlobalValues [r] [c] [v] m) !! (r, c) =
  Some match Values m !! (r, c) with
       | Some x => vadd x v
       | None => v
       end.
Proof.
  unfold InsertGlobalValues. simpl. rewrite insert1_lookup. simpl.
  by rewrite decide_True.
Qed.

(** [put] of one value at a position that is stored, or into an
    UNFILLED matrix: the value ends up stored there, without a warning,
    and the matrix is FILLED afterwards unless it was UNFILLED and
    empty. *)
Lemma put_single_run w self m (r c : Z) (v : V) :
  heap w !! self = Some m →
  Filled m = false ∨ is_Some (Values m !! (r, c)) →
  ∃ w1 m1,
    put self [v] [r] [c] w = (Ok (), w1) ∧
    heap w1 !! self = Some m1 ∧ Values m1 !! (r, c) = Some v ∧
    warnings w1 = warnings w ∧
    Filled m1 = Filled m || negb (Nat.eqb (NumGlobalNonzeros m) 0).
Proof.
  intros Hm Hok. destruct (Filled m) eqn:HF.
  - destruct Hok as [?|[x Hx]]; [done|].
    rewrite (put_filled_run _ _ _ _ _ _ Hm HF).
    unfold ReplaceGlobalValues.
    rewrite (writeAll_single _ _ _ _ _ _ Hx). simpl.
    eexists _, _. split; [done|]. simpl.
    split; [apply lookup_insert_eq|]. simpl.
    by rewrite lookup_insert_eq, HF.
  - destruct (decide (NumGlobalNonzeros m = 0%nat)) as [Hn|Hn].
    + rewrite (put_empty_run _ _ _ _ _ _ Hm HF Hn).
      eexists _, _. split; [done|]. simpl.
      split; [apply lookup_insert_eq|].
      rewrite Insert_single_lookup.
      apply map_size_empty_inv in Hn. rewrite Hn, lookup_empty.
      unfold NumGlobalNonzeros. rewrite Hn, map_size_empty.
      repeat split. simpl. by rewrite HF.
    + rewrite (put_nonempty_run _ _ _ _ _ _ Hm HF Hn).
      unfold ReplaceGlobalValues. simpl length.
      erewrite writeAll_single; last first.
      { simpl. apply (Insert_single_lookup m r c vzero). }
      eexists _, _. split; [done|]. simpl.
      split; [apply lookup_insert_eq|]. simpl.
      rewrite lookup_insert_eq.
      split; [done|]. split; [done|].
      destruct (NumGlobalNonzeros m); done.
Qed.

(** [addAt] of one value at a position that is stored, or into an
    UNFILLED matrix: the value is added to what the position holds. *)
Lemma addAt_single_run w self m (r c : Z) (v : V) :
  heap w !! self = Some m →
  Filled m = false ∨ is_Some (Values m !! (r, c)) →
  ∃ w1 m1,
    addAt self [v] [r] [c] w = (Ok (), w1) ∧
    heap w1 !! self = Some m1 ∧ Filled m1 = Filled m ∧
    warnings w1 = warnings w ∧
    Values m1 !! (r, c) =
      Some match Values m !! (r, c) with
           | Some x => vadd x v
           | None => v
           end.
Proof.
  intros Hm Hok. destruct (Filled m) eqn:HF.
  - destruct Hok as [?|[x Hx]]; [done|].
    rewrite (addAt_filled_run _ _ _ _ _ _ Hm HF).
    unfold SumIntoGlobalValues.
    rewrite (writeAll_single _ _ _ _ _ _ Hx). simpl.
    eexists _, _. split; [done|]. simpl.
    split; [apply lookup_insert_eq|]. simpl.
    by rewrite lookup_insert_eq, Hx.
  - rewrite (addAt_unfilled_run _ _ _ _ _ _ Hm HF).
    eexists _, _. split; [done|]. simpl.
    split; [apply lookup_insert_eq|].
    by rewrite Insert_single_lookup.
Qed.

(** Two [put]s and two [addAt]s of one value each at a position that is
    stored, or in an UNFILLED matrix. *)
Lemma put_addAt_twice_run w self m (r c : Z) (v1 v2 : V) :
  heap w !! self = Some m →
  Filled m = false ∨ is_Some (Values m !! (r, c)) →
  (∃ w1 w2 m1 m2,
     put self [v1] [r] [c] w = (Ok (), w1) ∧
     put self [v2] [r] [c] w1 = (Ok (), w2) ∧
     heap w1 !! self = Some m1 ∧ Values m1 !! (r, c) = Some v1 ∧
     (NumGlobalNonzeros m ≠ 0%nat → Filled m1 = true) ∧
     heap w2 !! self = Some m2 ∧ Values m2 !! (r, c) = Some v2 ∧
     Filled m2 = true ∧ warnings w2 = warnings w) ∧
  (∃ w1 w2 m2,
     addAt self [v1] [r] [c] w = (Ok (), w1) ∧
     addAt self [v2] [r] [c] w1 = (Ok (), w2) ∧
     heap w2 !! self = Some m2 ∧
     Values m2 !! (r, c) =
       Some match Values m !! (r, c) with
            | Some x => vadd (vadd x v1) v2
            | None => vadd v1 v2
            end ∧
     Filled m2 = Filled m ∧ warnings w2 = warnings w).
Proof.
  intros Hm Hok. split.
  - destruct (put_single_run w self m r c v1 Hm Hok)
      as (w1 & m1 & Hrun1 & Hm1 & Hv1 & Hw1 & HF1).
    destruct (put_single_run w1 self m1 r c v2 Hm1)
      as (w2 & m2 & Hrun2 & Hm2 & Hv2 & Hw2 & HF2).
    { right. by rewrite Hv1. }
    exists w1, w2, m1, m2. repeat split; try done.
    + intros Hn. rewrite HF1. destruct (NumGlobalNonzeros m); [done|].
      simpl. apply orb_true_r.
    + rewrite HF2. unfold NumGlobalNonzeros.
      destruct (size (Values m1)) eqn:Hsz; [|simpl; apply orb_true_r].
      apply map_size_empty_inv in Hsz. rewrite Hsz in Hv1.
      by rewrite lookup_empty in Hv1.
    + congruence.
  - destruct (addAt_single_run w self m r c v1 Hm Hok)
      as (w1 & m1 & Hrun1 & Hm1 & HF1 & Hw1 & Hv1).
    destruct (addAt_single_run w1 self m1 r c v2 Hm1)
      as (w2 & m2 & Hrun2 & Hm2 & HF2 & Hw2 & Hv2).
    { right. by rewrite Hv1. }
    exists w1, w2, m2. repeat split; try done; try congruence.
    rewrite Hv2, Hv1. by destruct (Values m !! (r, c)).
Qed.

(** One value written to a FILLED matrix at a position that is not
    stored: the matrix is as it was and the call warns. *)
Lemma put_missing_run w self m (r c : Z) (v : V) :
  heap w !! self = Some m → Filled m = true → Values m !! (r, c) = None →
  put self [v] [r] [c] w =
  (Ok (), mkWorld (heap w) (ReplaceWarning :: warnings w) (calls w)).
Proof.
  intros Hm HF Hx. rewrite (put_filled_run _ _ _ _ _ _ Hm HF).
  unfold ReplaceGlobalValues.
  rewrite (writeAll_single_missing _ _ _ _ _ Hx). simpl.
  do 2 f_equal. apply insert_id. rewrite Hm. by destruct m.
Qed.

Lemma addAt_missing_run w self m (r c : Z) (v : V) :
  heap w !! self = Some m → Filled m = true → Values m !! (r, c) = None →
  addAt self [v] [r] [c] w =
  (Ok (), mkWorld (heap w) (SumWarning :: warnings w) (calls w)).
Proof.
  intros Hm HF Hx. rewrite (addAt_filled_run _ _ _ _ _ _ Hm HF).
  unfold SumIntoGlobalValues.
  rewrite (writeAll_single_missing _ _ _ _ _ Hx). simpl.
  do 2 f_equal. apply insert_id. rewrite Hm. by destruct m.
Qed.

(** C5 (as amended): for a position with indices in the int32 range,
    which the cast at the head of [put] and [addAt] leaves as they are.
    At a position that is stored, or in an UNFILLED matrix, two [put]s of
    [v1] then [v2] leave exactly [v2]; when the matrix was UNFILLED with
    nonzeros the first [put] has already made it FILLED.  Two [addAt]s of
    [v1] then [v2] leave both added, in this order, to what the position
    held ([v1 + v2] when it held nothing).  No warning is issued.  On a
    FILLED matrix that does not store the position, [put] and [addAt]
    each add their warning and leave every matrix as it was, so that
    nothing is stored there, at the first call and at the second. *)
Theorem put_replaces_addAt_accumulates w self m (r c : Z) (v1 v2 : V)
    (int64_1 int64_2 : bool) :
  let id1 := Cast.mkIndices int64_1 [r] in
  let id2 := Cast.mkIndices int64_2 [c] in
  heap w !! self = Some m → in_int32 r → in_int32 c →
  (Filled m = false ∨ is_Some (Values m !! (r, c)) →
   (∃ w1 w2 m1 m2,
      Cast.put self [v1] id1 id2 w = (Ok (), w1) ∧
      Cast.put self [v2] id1 id2 w1 = (Ok (), w2) ∧
      heap w1 !! self = Some m1 ∧ Values m1 !! (r, c) = Some v1 ∧
      (NumGlobalNonzeros m ≠ 0%nat → Filled m1 = true) ∧
      heap w2 !! self = Some m2 ∧ Values m2 !! (r, c) = Some v2 ∧
      Filled m2 = true ∧ warnings w2 = warnings w) ∧
   (∃ w1 w2 m2,
      Cast.addAt self [v1] id1 id2 w = (Ok (), w1) ∧
      Cast.addAt self [v2] id1 id2 w1 = (Ok (), w2) ∧
      heap w2 !! self = Some m2 ∧
      Values m2 !! (r, c) =
        Some match Values m !! (r, c) with
             | Some x => vadd (vadd x v1) v2
             | None => vadd v1 v2
             end ∧
      Filled m2 = Filled m ∧ warnings w2 = warnings w)) ∧
  (Filled m = true → Values m !! (r, c) = None →
   (∃ w1 w2,
      Cast.put self [v1] id1 id2 w = (Ok (), w1) ∧
      Cast.put self [v2] id1 id2 w1 = (Ok (), w2) ∧
      heap w1 = heap w ∧ heap w2 = heap w ∧
      warnings w1 = ReplaceWarning :: warnings w ∧
      warnings w2 = ReplaceWarning :: ReplaceWarning :: warnings w) ∧
   (∃ w1 w2,
      Cast.addAt self [v1] id1 id2 w = (Ok (), w1) ∧
      Cast.addAt self [v2] id1 id2 w1 = (Ok (), w2) ∧
      heap w1 = heap w ∧ heap w2 = heap w ∧
      warnings w1 = SumWarning :: warnings w ∧
      warnings w2 = SumWarning :: SumWarning :: warnings w)).
Proof.
  intros id1 id2 Hm Hr Hc. unfold Cast.put, Cast.addAt.
  rewrite (astype_int32_in_range id1), (astype_int32_in_range id2)
    by by apply Forall_singleton.
  simpl. split.
  - intros Hok. by apply put_addAt_twice_run.
  - intros HF Hx. split.
    + rewrite (put_missing_run _ _ _ _ _ v1 Hm HF Hx).
      eexists _, _. split; [done|]. split.
      { by apply put_missing_run with (m := m). }
      done.
    + rewrite (addAt_missing_run _ _ _ _ _ v1 Hm HF Hx).
      eexists _, _. split; [done|]. split.
      { by apply addAt_missing_run with (m := m). }
      done.
Qed.



End Assembly.

(** ** Translation of local overlapping indices *)

Section Translation.
Import MeshMatrix.

Lemma take_length {A} (a : list A) ids g :
  numerix.take a ids = Some g → length g = length ids.
Proof. unfold numerix.take. intros Hg. symmetry. by eapply length_mapM. Qed.

(** Three parallel arrays filtered by the mask computed from the second
    one: the triples kept are those the predicate accepts. *)
Lemma compress_triples {V} (owned : list Z) (v : list V) (g1 g2 : list Z) :
  length v = length g1 → length g2 = length g1 →
  ∃ v' r' c',
    numerix.compress v (numerix.in1d g1 owned) = Some v' ∧
    numerix.compress g1 (numerix.in1d g1 owned) = Some r' ∧
    numerix.compress g2 (numerix.in1d g1 owned) = Some c' ∧
    zip (zip v' r') c' =
      filter (λ t, t.1.2 ∈ owned) (zip (zip v g1) g2) ∧
    length r' = length v' ∧ length c' = length v'.
Proof.
  revert v g2. induction g1 as [|x g1 IH]; intros v g2 Hv Hg2.
  - destruct v; [|done]. destruct g2; [|done].
    by exists [], [], [].
  - destruct v as [|y v]; [done|]. destruct g2 as [|z g2]; [done|].
    simpl in Hv, Hg2.
    destruct (IH v g2) as (v' & r' & c' & Hcv & Hcr & Hcc & Hzip & Hl1 & Hl2);
      [lia..|].
    unfold numerix.in1d in *. rewrite fmap_cons.
    cbn [numerix.compress]. rewrite Hcv, Hcr, Hcc.
    cbn [mbind option_bind zip_with]. rewrite filter_cons. cbn [fst snd].
    destruct (decide (x ∈ owned)) as [Hin|Hout].
    + rewrite bool_decide_eq_true_2 by done.
      exists (y :: v'), (x :: r'), (z :: c'). simpl.
      repeat split; auto with f_equal.
    + rewrite bool_decide_eq_false_2 by done.
      exists v', r', c'. by repeat split.
Qed.

(** C6: the local row and column indices are both looked up in the
    table of global overlapping row IDs, which is built from the mesh's
    overlapping cell IDs; the call succeeds when the indices are valid
    and the three arrays have one length; the triples it returns are, in
    order, exactly those whose global row is one of the global
    non-overlapping row IDs, so every triple with a halo row is gone,
    and values, rows and columns stay aligned. *)
Theorem globalNonOverlapping_keeps_owned_rows {V}
    (self : _TrilinosMeshMatrix) (vector : list V) (id1 id2 g1 g2 : list Z) :
  numerix.take (_globalOverlappingRowIDs self) id1 = Some g1 →
  numerix.take (_globalOverlappingRowIDs self) id2 = Some g2 →
  length id2 = length id1 → length vector = length id1 →
  ∃ v' r' c',
    _globalNonOverlapping self vector id1 id2 = Some (v', r', c') ∧
    zip (zip v' r') c' =
      filter (λ t, t.1.2 ∈ _globalNonOverlappingRowIDs self)
             (zip (zip vector g1) g2) ∧
    length r' = length v' ∧ length c' = length v' ∧
    Forall (λ r, r ∈ _globalNonOverlappingRowIDs self) r'.
Proof.
  intros Hg1 Hg2 Hl2 Hlv.
  pose proof (take_length _ _ _ Hg1) as Hlg1.
  pose proof (take_length _ _ _ Hg2) as Hlg2.
  destruct (compress_triples (_globalNonOverlappingRowIDs self) vector g1 g2)
    as (v' & r' & c' & Hcv & Hcr & Hcc & Hzip & Hlr & Hlc); [lia..|].
  exists v', r', c'.
  unfold _globalNonOverlapping, _getStencil.
  rewrite Hg1, Hg2. simpl. rewrite Hcr, Hcc. simpl. rewrite Hcv. simpl.
  repeat split; try done.
  apply Forall_forall. intros r Hr.
  apply list_elem_of_lookup in Hr as [i Hi].
  destruct (lookup_lt_is_Some_2 v' i) as [y Hy].
  { rewrite <- Hlr. by eapply lookup_lt_Some. }
  destruct (lookup_lt_is_Some_2 c' i) as [z Hz].
  { rewrite Hlc, <- Hlr. by eapply lookup_lt_Some. }
  assert (Hin : (y, r, z) ∈ zip (zip v' r') c').
  { apply list_elem_of_lookup. exists i.
    rewrite !lookup_zip_with. by rewrite Hy, Hi, Hz. }
  rewrite Hzip in Hin. by apply list_elem_of_filter in Hin as [Hin _].
Qed.

End Translation.

(** ** Scatter and gather *)

Section RoundTrip.
Context {V : Type} `{Scalar V}.
Import Redistribution.

Lemma assoc_self (f : Z → V) (g : Z) (l : list Z) :
  g ∈ l → assoc g ((λ g', (g', f g')) <$> l) = Some (f g).
Proof.
  induction l as [|g' l IH]; intros Hin; [by inversion Hin|].
  rewrite fmap_cons. cbn [assoc].
  destruct (decide (g' = g)) as [->|Hne].
  - by rewrite bool_decide_eq_true_2.
  - rewrite bool_decide_eq_false_2 by done. apply IH.
    apply elem_of_cons in Hin as [?|?]; [congruence|done].
Qed.

Lemma assoc_zip_seq (x : list V) (s i : nat) :
  assoc (Z.of_nat (s + i)) (zip (Z.of_nat <$> seq s (length x)) x) = x !! i.
Proof.
  revert s i. induction x as [|y x IH]; intros s i; [done|].
  simpl length. simpl seq. rewrite fmap_cons. cbn [zip_with assoc].
  destruct i as [|i].
  - rewrite bool_decide_eq_true_2 by (f_equal; lia). done.
  - rewrite bool_decide_eq_false_2 by lia.
    replace (s + S i)%nat with (S s + i)%nat by lia. apply IH.
Qed.

Lemma fmap_lookup_seq (x : list V) :
  (λ i, default vzero (x !! i)) <$> seq 0 (length x) = x.
Proof.
  apply list_eq. intros i. rewrite list_lookup_fmap.
  destruct (decide (i < length x)%nat) as [Hlt|Hge].
  - rewrite lookup_seq_lt by done. simpl.
    destruct (lookup_lt_is_Some_2 x i Hlt) as [y Hy]. by rewrite Hy.
  - rewrite lookup_seq_ge by lia. simpl.
    symmetry. apply lookup_ge_None. lia.
Qed.

(** What a vector whose data is computed index by index holds. *)
Lemma entries_pointwise (f : Z → V) (map : list (list Z)) :
  entries (mkVector map ((λ ids : list Z, f <$> ids) <$> map)) =
  (λ g, (g, f g)) <$> concat map.
Proof.
  unfold entries. simpl.
  induction map as [|ids map IH]; [done|].
  rewrite fmap_cons. cbn [zip_with concat]. rewrite fmap_app, IH.
  f_equal. clear. induction ids as [|g ids IH]; [done|].
  rewrite !fmap_cons. cbn [zip_with]. by rewrite IH.
Qed.

Lemma concat_zip_nil (l : list (list V)) (d : list (list V)) :
  concat (zip_with zip ((λ _, @nil Z) <$> l) d) = [].
Proof.
  revert d. induction l as [|y l IH]; intros d; [done|].
  rewrite fmap_cons. destruct d as [|z d]; [done|].
  cbn [zip_with concat]. by rewrite IH.
Qed.

(** The root vector: process 0 holds all of its array [x], the other
    processes hold nothing. *)
Lemma entries_root (x : list V) (l : list (list V)) :
  let v := x :: l in
  let myElements :=
    imap (λ MyPID y, if bool_decide (MyPID = 0%nat)
                     then length y else 0%nat) v in
  entries (VectorOf (numerix.arange <$> myElements) v) =
  zip (numerix.arange (length x)) x.
Proof.
  cbn zeta. rewrite imap_cons.
  rewrite (imap_ext _ (const (λ _, 0%nat))) by done.
  rewrite imap_const, fmap_cons, <- list_fmap_compose.
  unfold entries, VectorOf. cbn [vMap vData zip_with concat].
  rewrite bool_decide_eq_true_2 by done.
  unfold numerix.arange at 2. rewrite length_fmap, length_seq, firstn_all.
  rewrite (concat_zip_nil l). apply app_nil_r.
Qed.

(** C9: for a vector [x] replicated on every process and a map that
    partitions its index range over the processes, scattering to the map
    and gathering back gives every process [x] again, element for
    element; with one process both operations return their argument's
    data as it is, whatever the map. *)
Theorem scatter_gather_roundtrip (x : list V) (map : list (list Z)) :
  NumProc map ≠ 0%nat →
  (NumProc map ≠ 1%nat → concat map ≡ₚ numerix.arange (length x)) →
  let v := replicate (NumProc map) x in
  _trilinosToNumpyVector (_numpyToTrilinosVector v map) = v ∧
  (NumProc map = 1%nat →
   vData (_numpyToTrilinosVector v map) = v ∧
   ∀ d : Vector V, NumProc (vMap d) = 1%nat →
                   _trilinosToNumpyVector d = vData d).
Proof.
  intros Hne Hpart v. subst v.
  unfold _numpyToTrilinosVector, _trilinosToNumpyVector.
  destruct (decide (NumProc map = 1%nat)) as [H1|Hn1].
  - rewrite !(bool_decide_eq_true_2 _ H1).
    split; [|intros _; split; [done|]].
    + rewrite bool_decide_eq_true_2; [done|].
      unfold VectorOfArray, NumProc. simpl.
      by rewrite length_fmap, length_replicate.
    + intros d Hd. by rewrite bool_decide_eq_true_2.
  - rewrite !(bool_decide_eq_false_2 _ Hn1).
    split; [|done].
    specialize (Hpart Hn1).
    destruct map as [|ids0 rest]; [done|].
    cbn [NumProc length replicate].
    unfold Import_Insert. cbn [vMap vData].
    rewrite (entries_root x (replicate (length rest) x)).
    rewrite entries_pointwise.
    unfold NumGlobalElements. rewrite (Permutation_length Hpart).
    replace (length (numerix.arange (length x))) with (length x)
      by (unfold numerix.arange; by rewrite length_fmap, length_seq).
    rewrite <- list_fmap_compose.
    change (x :: replicate (length rest) x)
      with (replicate (length (ids0 :: rest)) x).
    apply const_fmap. intros _ ids _. cbn [compose].
    etransitivity; [|apply (fmap_lookup_seq x)].
    unfold numerix.arange. rewrite <- list_fmap_compose.
    apply Forall_fmap_ext, Forall_forall. intros i Hi. simpl.
    apply elem_of_seq in Hi.
    rewrite (assoc_self _ (Z.of_nat i)).
    + simpl. f_equal. apply (assoc_zip_seq x 0 i).
    + rewrite Hpart. apply list_elem_of_fmap. exists i. split; [done|].
      apply elem_of_seq. lia.
Qed.

End RoundTrip.

(** ** The concrete scenarios *)

Module Concrete.
Import Epetra Scenarios.

(** C1: in [A - B] where [A] has fewer nonzeros than [B] the code
    scales the copy of [A] and adds it to the copy of [B]: the result
    holds [3 - 5 = -2] at (0,0) and [1] at (0,1), that is [B - A], where
    [A - B] has [2] and [-1]. *)
Theorem sub_of_fewer_nonzeros_is_negated :
  ∃ r w R,
    A_minus_B start = (Ok r, w) ∧ heap w !! r = Some R ∧
    Values R !! (0, 0)%Z = Some (-2)%float ∧
    Values R !! (0, 1)%Z = Some 1%float ∧
    dom (Values R) = {[ (0, 0)%Z; (0, 1)%Z ]} ∧
    warnings w = [].
Proof.
  eexists _, _, _. split; [vm_compute; reflexivity|].
  split; [vm_compute; reflexivity|].
  repeat split; vm_compute; reflexivity.
Qed.

(** C8 (as amended): the sum of the doctest is the matrix with rows
    (1, 10, 3), (0, 1 + pi, 0) and (2.5, 0, 1); it stores six values,
    nothing at (1,0), (1,2) and (2,1), and no warning is issued. *)
Theorem L_plus_identity_value :
  ∃ r w R,
    L_plus_identity start = (Ok r, w) ∧ heap w !! r = Some R ∧
    numpyArray 3 R = [ [1; 10; 3]; [0; 1 + pi; 0]; [2.5; 0; 1] ]%float ∧
    dom (Values R) =
      {[ (0, 0); (0, 1); (0, 2); (1, 1); (2, 0); (2, 2) ]}%Z ∧
    warnings w = [].
Proof.
  eexists _, _, _. split; [vm_compute; reflexivity|].
  split; [vm_compute; reflexivity|].
  repeat split; vm_compute; reflexivity.
Qed.

(** The middle value of the sum is not [4 + pi]. *)
Lemma L_plus_identity_not_4_plus_pi :
  ¬ ∃ r w R,
    L_plus_identity start = (Ok r, w) ∧ heap w !! r = Some R ∧
    numpyArray 3 R = [ [1; 10; 3]; [0; 4 + pi; 0]; [2.5; 0; 1] ]%float.
Proof.
  intros (r & w & R & Hrun & HR & Harr).
  vm_compute in Hrun. injection Hrun as <- <-.
  vm_compute in HR. injection HR as <-.
  apply (f_equal (λ a, match a with
                       | [_; [_; x; _]; _] => PrimFloat.ltb x 5
                       | _ => false
                       end)) in Harr.
  vm_compute in Harr. discriminate.
Qed.

(** On a FILLED matrix without a structural entry at (0,1), two [put]s
    there do not leave the second value, and two [addAt]s there do not
    leave the sum: the position holds nothing. *)
Lemma put_twice_without_position_stores_nothing :
  let id1 := Cast.mkIndices false [0%Z] in
  let id2 := Cast.mkIndices false [1%Z] in
  (¬ ∃ w1 w2 m2,
       Cast.put 1%positive [2%float] id1 id2 (one filled_1x1) = (Ok (), w1) ∧
       Cast.put 1%positive [3%float] id1 id2 w1 = (Ok (), w2) ∧
       heap w2 !! 1%positive = Some m2 ∧
       Values m2 !! (0, 1)%Z = Some 3%float) ∧
  (¬ ∃ w1 w2 m2,
       Cast.addAt 1%positive [2%float] id1 id2 (one filled_1x1)
         = (Ok (), w1) ∧
       Cast.addAt 1%positive [3%float] id1 id2 w1 = (Ok (), w2) ∧
       heap w2 !! 1%positive = Some m2 ∧
       Values m2 !! (0, 1)%Z = Some (2 + 3)%float).
Proof.
  split.
  - intros (w1 & w2 & m2 & Hp1 & Hp2 & Hm2 & Hv).
    vm_compute in Hp1. injection Hp1 as <-.
    vm_compute in Hp2. injection Hp2 as <-.
    vm_compute in Hm2. injection Hm2 as <-.
    vm_compute in Hv. discriminate.
  - intros (w1 & w2 & m2 & Hp1 & Hp2 & Hm2 & Hv).
    vm_compute in Hp1. injection Hp1 as <-.
    vm_compute in Hp2. injection Hp2 as <-.
    vm_compute in Hm2. injection Hm2 as <-.
    vm_compute in Hv. discriminate.
Qed.


(** *** The theorems at concrete inputs *)

(** [addAt] of 2 at (0,0) and 7 at (0,5), the indices in int64 arrays,
    into the FILLED matrix that only stores (0,0). *)
Lemma addAt_filled_example :
  let id1 := Cast.mkIndices true [0; 0]%Z in
  let id2 := Cast.mkIndices true [0; 5]%Z in
  ∃ m',
    Cast.addAt 1%positive [2; 7]%float id1 id2 (one filled_1x1) =
      (Ok (), mkWorld (<[1%positive := m']> (heap (one filled_1x1)))
                      [SumWarning] []) ∧
    Filled m' = true ∧
    ∀ p, Values m' !! p =
         (λ x, foldl vadd x
                 (targeting p (triples [0; 0]%Z [0; 5]%Z [2; 7]%float)))
           <$> Values filled_1x1 !! p.
Proof.
  refine (addAt_filled_drops_and_warns_once
            (one filled_1x1) 1%positive filled_1x1 [2; 7]%float
            (Cast.mkIndices true [0; 0]%Z) (Cast.mkIndices true [0; 5]%Z)
            _ _ _ _ _).
  - reflexivity.
  - reflexivity.
  - simpl. repeat (apply Forall_cons_2; [unfold in_int32; lia|]).
    apply Forall_nil_2.
  - simpl. repeat (apply Forall_cons_2; [unfold in_int32; lia|]).
    apply Forall_nil_2.
  - exists (0%Z, 5%Z, 7%float). split; [|reflexivity].
    right. left.
Defined.

Lemma finalize_idempotent_example :
  ∃ w1 w2 m1 m2,
    finalize 1%positive (one unfilled_1x1) = (Ok (), w1) ∧
    finalize 1%positive w1 = (Ok (), w2) ∧
    heap w1 !! 1%positive = Some m1 ∧ heap w2 !! 1%positive = Some m2 ∧
    Filled m1 = true ∧ StorageOptimized m1 = true ∧
    Values m1 = Values unfilled_1x1 ∧
    m2 = m1 ∧ heap w2 = heap w1 ∧
    warnings w1 = [] ∧ warnings w2 = [] ∧
    (Nat.b2n (optimizes unfilled_1x1 m1) + Nat.b2n (optimizes m1 m2) ≤ 1)%nat ∧
    optimizes m1 m2 = false ∧
    count_calls (CallFillComplete 1%positive) (calls w2) ≤ 1.
Proof.
  refine (finalize_idempotent (one unfilled_1x1) 1%positive unfilled_1x1
            _).
  reflexivity.
Defined.

(** Two matrices with two rows each. *)
Lemma add_commutes_example :
  ∃ r1 w1 R1 r2 w2 R2,
    Rows.__add__ 2 2 1%positive (OMatrix 2%positive) nested = (Ok r1, w1) ∧
    Rows.__add__ 2 2 2%positive (OMatrix 1%positive) w1 = (Ok r2, w2) ∧
    heap w2 !! r1 = Some R1 ∧ heap w2 !! r2 = Some R2 ∧ r1 ≠ r2 ∧
    (∀ p x y, Values R1 !! p = Some x → Values R2 !! p = Some y → x = y) ∧
    dom (Values R1) = dom ({[ (0, 0)%Z := 3%Z; (0, 1)%Z := 1%Z ]}
                             : gmap (Z * Z) Z) ∧
    dom (Values R2) = dom ({[ (0, 0)%Z := 3%Z; (0, 1)%Z := 1%Z ]}
                             : gmap (Z * Z) Z) ∧
    warnings w2 = [].
Proof.
  refine (add_commutes_on_nested_patterns nested 1%positive 2%positive
            (mkCrs false false {[ (0, 0)%Z := 5%Z ]})
            (mkCrs false false {[ (0, 0)%Z := 3%Z; (0, 1)%Z := 1%Z ]})
            2 2 _ _ _ _ _ _ _).
  - exact Z.add_comm.
  - exact Z.mul_1_r.
  - discriminate.
  - discriminate.
  - reflexivity.
  - reflexivity.
  - refine (bool_decide_unpack _ _). vm_compute. exact I.
Defined.

Lemma put_addAt_example :
  let id := Cast.mkIndices true [0%Z] in
  (∃ w1 w2 m1 m2,
     Cast.put 1%positive [2%float] id id (one unfilled_1x1) = (Ok (), w1) ∧
     Cast.put 1%positive [3%float] id id w1 = (Ok (), w2) ∧
     heap w1 !! 1%positive = Some m1 ∧
     Values m1 !! (0, 0)%Z = Some 2%float ∧
     (NumGlobalNonzeros unfilled_1x1 ≠ 0%nat → Filled m1 = true) ∧
     heap w2 !! 1%positive = Some m2 ∧
     Values m2 !! (0, 0)%Z = Some 3%float ∧
     Filled m2 = true ∧ warnings w2 = []) ∧
  (∃ w1 w2 m2,
     Cast.addAt 1%positive [2%float] id id (one unfilled_1x1)
       = (Ok (), w1) ∧
     Cast.addAt 1%positive [3%float] id id w1 = (Ok (), w2) ∧
     heap w2 !! 1%positive = Some m2 ∧
     Values m2 !! (0, 0)%Z = Some ((1 + 2) + 3)%float ∧
     Filled m2 = false ∧ warnings w2 = []).
Proof.
  refine (proj1 (put_replaces_addAt_accumulates
                   (one unfilled_1x1) 1%positive unfilled_1x1 0%Z 0%Z
                   2%float 3%float true true _ _ _) _).
  - reflexivity.
  - unfold in_int32. lia.
  - unfold in_int32. lia.
  - left. reflexivity.
Defined.


Lemma add_zero_example :
  __add__ 1%positive (OInt 0) (one filled_1x1)
    = (Ok 1%positive, one filled_1x1) ∧
  __radd__ 1%positive (OInt 0) (one filled_1x1)
    = (Ok 1%positive, one filled_1x1) ∧
  __sub__ 1%positive (OInt 0) (one filled_1x1)
    = (Ok 1%positive, one filled_1x1) ∧
  ∃ w', __add__ 1%positive (OInt 3) (one filled_1x1)
          = (Raise AttributeError, w').
Proof.
  refine (add_zero_is_self_other_scalars_raise
            (one filled_1x1) 1%positive filled_1x1 (OInt 3) _ _ _).
  - reflexivity.
  - intros l. discriminate.
  - reflexivity.
Defined.

Lemma globalNonOverlapping_example :
  ∃ v' r' c',
    MeshMatrix._globalNonOverlapping grid5 [10; 20; 30]%float
      [0; 2; 5]%Z [1; 3; 4]%Z = Some (v', r', c') ∧
    zip (zip v' r') c' =
      filter (λ t, t.1.2 ∈ MeshMatrix._globalNonOverlappingRowIDs grid5)
             (zip (zip [10; 20; 30]%float [0; 2; 6]%Z) [1; 3; 5]%Z) ∧
    length r' = length v' ∧ length c' = length v' ∧
    Forall (λ r, r ∈ MeshMatrix._globalNonOverlappingRowIDs grid5) r'.
Proof.
  refine (globalNonOverlapping_keeps_owned_rows grid5 [10; 20; 30]%float
            [0; 2; 5]%Z [1; 3; 4]%Z [0; 2; 6]%Z [1; 3; 5]%Z _ _ _ _);
    reflexivity.
Defined.

(** Three values on two processes: process 0 holds indices 0 and 2,
    process 1 holds index 1. *)
Lemma scatter_gather_example :
  let map := [ [0; 2]; [1] ]%Z in
  let v := [ [10; 20; 30]; [10; 20; 30] ]%float in
  Redistribution._trilinosToNumpyVector
    (Redistribution._numpyToTrilinosVector v map) = v.
Proof.
  refine (proj1 (scatter_gather_roundtrip [10; 20; 30]%float
                   [ [0; 2]; [1] ]%Z _ _)).
  - discriminate.
  - intros _. apply perm_skip, perm_swap.
Defined.

End Concrete.

(** ** Batches of insertions and writes *)

Section Batches.
Context {V : Type} `{Scalar V}.
Import Epetra.
Implicit Types (w : World V) (m : CrsMatrix V) (self : loc).

Lemma foldl_insert1_lookup (ts : list (Z * Z * V)) (vals : gmap (Z * Z) V)
    (p : Z * Z) :
  foldl insert1 vals ts !! p = accumulated (vals !! p) (targeting p ts).
Proof.
  revert vals. induction ts as [|t ts IH]; intros vals; [done|].
  simpl. rewrite IH, insert1_lookup, targeting_cons.
  by destruct (decide (t.1 = p)).
Qed.

Lemma foldl_replace_last (x : V) (vs : list V) :
  foldl (λ _ new : V, new) x vs = default x (last vs).
Proof.
  revert x. induction vs as [|v vs IH]; intros x; [done|].
  simpl. rewrite IH. destruct vs as [|v' vs]; [done|].
  change (last (v :: v' :: vs)) with (last (v' :: vs)).
  destruct (last (v' :: vs)) eqn:E; [done|]. by apply last_None in E.
Qed.


(** The batch [(vector, ids, ids)] along the diagonal, [ids] counting
    from [s]: position [p] is sent the value of its row, if it is on the
    diagonal and in range, and nothing otherwise. *)
Lemma targeting_diagonal (vector : list V) (s : nat) (p : Z * Z) :
  targeting p (triples (Z.of_nat <$> seq s (length vector))
                       (Z.of_nat <$> seq s (length vector)) vector) =
  if decide (p.1 = p.2 ∧ (Z.of_nat s ≤ p.1)%Z)
  then option_list (vector !! (Z.to_nat p.1 - s)%nat)
  else [].
Proof.
  revert s. induction vector as [|y vector IH]; intros s.
  - simpl. by destruct (decide _).
  - simpl length. simpl seq. rewrite !fmap_cons.
    unfold triples in *. cbn [zip_with]. rewrite targeting_cons. simpl.
    rewrite IH. destruct p as [r c]. simpl.
    destruct (decide ((Z.of_nat s, Z.of_nat s) = (r, c))) as [[= <- <-]|Hne].
    + rewrite decide_False by lia. rewrite decide_True by lia.
      replace (Z.to_nat (Z.of_nat s) - s)%nat with 0%nat by lia. done.
    + destruct (decide (r = c ∧ (Z.of_nat s ≤ r)%Z)) as [[-> Hle]|Hn].
      * assert (Z.of_nat s ≠ c) by congruence.
        rewrite decide_True by lia.
        replace (Z.to_nat c - s)%nat with (S (Z.to_nat c - S s)) by lia.
        done.
      * rewrite decide_False by lia. done.
Qed.

(** [addAt] on an UNFILLED matrix: what every position holds
    afterwards. *)
Lemma addAt_unfilled_values w self m vector id1 id2 :
  heap w !! self = Some m → Filled m = false →
  ∃ m',
    addAt self vector id1 id2 w =
      (Ok (), mkWorld (<[self := m']> (heap w)) (warnings w) (calls w)) ∧
    Filled m' = false ∧
    ∀ p, Values m' !! p =
         accumulated (Values m !! p) (targeting p (triples id1 id2 vector)).
Proof.
  intros Hm HF. rewrite (addAt_unfilled_run _ _ _ _ _ _ Hm HF).
  eexists. split; [done|]. split; [done|].
  intros p. apply foldl_insert1_lookup.
Qed.

(** X1: [addAt] on an UNFILLED matrix, with indices in the int32 range
    (which the cast at its head leaves as they are, whether the index
    arguments are int64 arrays or not), never fails and never warns: the
    matrix stays UNFILLED and every position holds what it held with the
    values of the batch sent to it added in batch order, a position being
    opened by the first value it receives. *)
Theorem addAt_unfilled_accumulates w self m vector
    (id1 id2 : Cast.indices) :
  heap w !! self = Some m → Filled m = false →
  Forall in_int32 (Cast.values id1) → Forall in_int32 (Cast.values id2) →
  ∃ m',
    Cast.addAt self vector id1 id2 w =
      (Ok (), mkWorld (<[self := m']> (heap w)) (warnings w) (calls w)) ∧
    Filled m' = false ∧
    ∀ p, Values m' !! p =
         accumulated (Values m !! p)
           (targeting p
              (triples (Cast.values id1) (Cast.values id2) vector)).
Proof.
  intros Hm HF Hid1 Hid2. unfold Cast.addAt.
  rewrite !astype_int32_in_range by done.
  by apply addAt_unfilled_values.
Qed.

(** X2: on a FILLED matrix the structure is frozen: after [addAt] or
    [put] with any batch the matrix stores exactly the positions it
    stored before and is still FILLED. *)
Theorem filled_structure_is_frozen w self m vector id1 id2 :
  heap w !! self = Some m → Filled m = true →
  (∃ w' m', addAt self vector id1 id2 w = (Ok (), w') ∧
            heap w' !! self = Some m' ∧ Filled m' = true ∧
            dom (Values m') = dom (Values m)) ∧
  (∃ w' m', put self vector id1 id2 w = (Ok (), w') ∧
            heap w' !! self = Some m' ∧ Filled m' = true ∧
            dom (Values m') = dom (Values m)).
Proof.
  intros Hm HF. split.
  - rewrite (addAt_filled_run _ _ _ _ _ _ Hm HF).
    eexists _, _. split; [done|]. simpl.
    split; [apply lookup_insert_eq|]. split; [done|].
    apply set_eq. intros p. rewrite !elem_of_dom.
    unfold SumIntoGlobalValues, writeAll. simpl.
    rewrite foldl_write1_lookup. simpl. by rewrite fmap_is_Some.
  - rewrite (put_filled_run _ _ _ _ _ _ Hm HF).
    eexists _, _. split; [done|]. simpl.
    split; [apply lookup_insert_eq|]. split; [done|].
    apply set_eq. intros p. rewrite !elem_of_dom.
    unfold ReplaceGlobalValues, writeAll. simpl.
    rewrite foldl_write1_lookup. simpl. by rewrite fmap_is_Some.
Qed.

(** [put] on a FILLED matrix: what every position holds afterwards, and
    when the call warns. *)
Lemma put_filled_values w self m vector id1 id2 :
  heap w !! self = Some m → Filled m = true →
  ∃ w' m',
    put self vector id1 id2 w = (Ok (), w') ∧
    heap w' !! self = Some m' ∧
    (∀ p, Values m' !! p =
          (λ x, default x (last (targeting p (triples id1 id2 vector))))
            <$> Values m !! p) ∧
    ((∃ t, t ∈ triples id1 id2 vector ∧ Values m !! t.1 = None) →
     warnings w' = ReplaceWarning :: warnings w) ∧
    ((∀ t, t ∈ triples id1 id2 vector → is_Some (Values m !! t.1)) →
     warnings w' = warnings w).
Proof.
  intros Hm HF. rewrite (put_filled_run _ _ _ _ _ _ Hm HF).
  eexists _, _. split; [done|]. simpl.
  split; [apply lookup_insert_eq|].
  unfold ReplaceGlobalValues, writeAll. simpl. split; [|split].
  - intros p. rewrite foldl_write1_lookup. simpl.
    destruct (Values m !! p); [|done]. simpl.
    by rewrite foldl_replace_last.
  - intros Hmiss. rewrite bool_decide_eq_true_2; [done|].
    apply foldl_write1_code. by right.
  - intros Hall. rewrite bool_decide_eq_false_2; [done|].
    rewrite foldl_write1_code. simpl. intros [?|(t & Ht & Hn)]; [done|].
    destruct (Hall t Ht) as [x Hx]. congruence.
Qed.

(** X3: [put] on a FILLED matrix, with indices in the int32 range (which
    the cast at its head leaves as they are, whether the index arguments
    are int64 arrays or not): every stored position ends with the last
    value the batch sends to it, or keeps its value when it is sent none;
    the one warning of [put] is issued when a value of the batch has no
    position, and only then. *)
Theorem put_filled_last_write_wins w self m vector
    (id1 id2 : Cast.indices) :
  heap w !! self = Some m → Filled m = true →
  Forall in_int32 (Cast.values id1) → Forall in_int32 (Cast.values id2) →
  let batch := triples (Cast.values id1) (Cast.values id2) vector in
  ∃ w' m',
    Cast.put self vector id1 id2 w = (Ok (), w') ∧
    heap w' !! self = Some m' ∧
    (∀ p, Values m' !! p =
          (λ x, default x (last (targeting p batch))) <$> Values m !! p) ∧
    ((∃ t, t ∈ batch ∧ Values m !! t.1 = None) →
     warnings w' = ReplaceWarning :: warnings w) ∧
    ((∀ t, t ∈ batch → is_Some (Values m !! t.1)) →
     warnings w' = warnings w).
Proof.
  intros Hm HF Hid1 Hid2 batch. unfold Cast.put.
  rewrite !astype_int32_in_range by done.
  by apply put_filled_values.
Qed.

End Batches.

(** ** The diagonal *)

Section Diagonal.
Context {V : Type} `{Scalar V}.
Import Epetra.
Implicit Types (w : World V) (m : CrsMatrix V) (self : loc).

Lemma targeting_arange (vector : list V) (r c : Z) :
  targeting (r, c) (triples (numerix.arange (length vector))
                            (numerix.arange (length vector)) vector) =
  if decide (on_diagonal (length vector) r c)
  then option_list (vector !! Z.to_nat r) else [].
Proof.
  unfold numerix.arange. rewrite (targeting_diagonal vector 0 (r, c)).
  cbn [fst snd]. rewrite Nat.sub_0_r. change (Z.of_nat 0) with 0%Z.
  unfold on_diagonal.
  destruct (decide (r = c ∧ (0 ≤ r)%Z)) as [[-> Hr]|Hn].
  - destruct (decide (c = c ∧ (0 ≤ c < Z.of_nat (length vector))%Z))
      as [_|Hn]; [done|].
    rewrite lookup_ge_None_2; [done|]. lia.
  - rewrite decide_False; [done|]. lia.
Qed.

Lemma targeting_elem (t : Z * Z * V) (ts : list (Z * Z * V)) :
  t ∈ ts → targeting t.1 ts ≠ [].
Proof.
  intros Ht Hnil. unfold targeting in Hnil.
  apply fmap_nil_inv in Hnil.
  assert (Hin : t ∈ filter (λ t', t'.1 = t.1) ts)
    by by apply list_elem_of_filter.
  rewrite Hnil in Hin. by apply elem_of_nil in Hin.
Qed.

(** X4: [putDiagonal] with a sequence on a FILLED matrix that stores
    the first [len(vector)] diagonal positions: these positions end with
    the values of [vector], every other position keeps its value, and no
    warning is issued. *)
Theorem putDiagonal_overwrites_diagonal w self m (vector : list V) :
  heap w !! self = Some m → Filled m = true →
  (∀ i, (i < length vector)%nat →
        is_Some (Values m !! (Z.of_nat i, Z.of_nat i))) →
  ∃ w' m',
    putDiagonal self vector w = (Ok (), w') ∧
    heap w' !! self = Some m' ∧ warnings w' = warnings w ∧
    ∀ r c, Values m' !! (r, c) =
           if decide (on_diagonal (length vector) r c)
           then vector !! Z.to_nat r
           else Values m !! (r, c).
Proof.
  intros Hm HF Hdiag. unfold putDiagonal.
  destruct (put_filled_values w self m vector
              (numerix.arange (length vector))
              (numerix.arange (length vector)) Hm HF)
    as (w' & m' & Hrun & Hm' & Hval & _ & Hnowarn).
  exists w', m'. split; [done|]. split; [done|]. split.
  - apply Hnowarn. intros [[r c] v] Ht.
    apply targeting_elem in Ht. simpl in *.
    rewrite targeting_arange in Ht.
    destruct (decide (on_diagonal _ r c)) as [[-> Hr]|]; [|done].
    specialize (Hdiag (Z.to_nat c)). rewrite Z2Nat.id in Hdiag by lia.
    apply Hdiag. lia.
  - intros r c. rewrite Hval, targeting_arange.
    destruct (decide (on_diagonal _ r c)) as [[-> Hr]|].
    + specialize (Hdiag (Z.to_nat c)). rewrite Z2Nat.id in Hdiag by lia.
      destruct Hdiag as [x Hx]; [lia|]. rewrite Hx. simpl.
      destruct (lookup_lt_is_Some_2 vector (Z.to_nat c)) as [v Hv]; [lia|].
      by rewrite Hv.
    + simpl. by destruct (Values m !! (r, c)).
Qed.



End Diagonal.

(** ** In-place addition *)

Section InPlace.
Context {V : Type} `{Scalar V}.
Import Epetra.
Implicit Types (w : World V) (S O : CrsMatrix V) (self other : loc).

Lemma bind_ret_run {A B} (a : A) (k : A → M V B) w :
  bind (ret a) k w = k a w.
Proof. reflexivity. Qed.

Lemma bind_bind_run {A B C} (c : M V A) (k1 : A → M V B) (k2 : B → M V C) w :
  bind (bind c k1) k2 w = bind c (λ a, bind (k1 a) k2) w.
Proof. unfold bind. by destruct (c w) as [[a|e] w']. Qed.

Lemma Add_into_unfilled (A B : CrsMatrix V) :
  Filled A = true → Filled B = false →
  Add A B = (mkCrs false (StorageOptimized B)
                   (merge insert_into (Values B) (Values A)), 0%Z).
Proof. intros HA HB. unfold Add. by rewrite HA, HB. Qed.

(** [__iadd__] when the receiver is FILLED and the operand has more
    nonzeros: both are inserted into a new, empty matrix that becomes the
    receiver's. *)
Lemma iadd_swap_run w self other S O :
  heap w !! self = Some S → heap w !! other = Some O →
  Filled O = true → Filled S = true →
  Nat.ltb (NumGlobalNonzeros S) (NumGlobalNonzeros O) = true →
  __iadd__ self other w =
  (Ok self,
   mkWorld (<[self := (Add S (Add O Epetra.empty).1).1]> (heap w))
           (warnings w) (calls w)).
Proof.
  intros Hs Ho HFO HFS Hlt. unfold __iadd__.
  rewrite (bind_Ok _ _ _ _ _ (getMatrix_run _ _ _ Ho)). rewrite HFO.
  unfold bind at 1. unfold ret at 1.
  rewrite (bind_Ok _ _ _ _ _ (getMatrix_run _ _ _ Hs)).
  rewrite (bind_Ok _ _ _ _ _ (getMatrix_run _ _ _ Ho)).
  rewrite HFS, Hlt. cbn [andb].
  rewrite (Add_into_unfilled O Epetra.empty HFO eq_refl). cbn [fst snd].
  rewrite bool_decide_eq_false_2 by (by intros ?).
  rewrite bind_bind_run, bind_ret_run, bind_bind_run.
  rewrite (bind_Ok _ _ _ _ _ (getMatrix_run _ _ _ Hs)).
  rewrite (Add_into_unfilled S (mkCrs false _ _) HFS eq_refl).
  cbn [fst snd].
  rewrite bool_decide_eq_false_2 by (by intros ?).
  reflexivity.
Qed.

Lemma callFillComplete_run w l (m : CrsMatrix V) :
  heap w !! l = Some m →
  callFillComplete l w =
  (Ok (), mkWorld (<[l := FillComplete m]> (heap w)) (warnings w)
                  (CallFillComplete l :: calls w)).
Proof.
  intros Hm. unfold callFillComplete.
  by rewrite (bind_Ok _ _ _ _ _ (getMatrix_run _ _ _ Hm)).
Qed.

(** [__iadd__] first fills its operand. *)
Lemma iadd_fill_first w self other O :
  heap w !! other = Some O →
  __iadd__ self other w = __iadd__ self other (fill other O w).
Proof.
  intros Ho. unfold __iadd__.
  rewrite (bind_Ok _ _ w _ _ (getMatrix_run _ _ _ Ho)).
  rewrite (bind_Ok _ _ (fill other O w) _ _
             (getMatrix_run _ _ _ (heap_fill_eq _ _ _ Ho))).
  rewrite Filled_filled, (bind_ret_run () _ (fill other O w)).
  destruct (Filled O) eqn:HFO.
  - by rewrite fill_Filled, bind_ret_run.
  - rewrite (bind_Ok _ _ _ _ _ (callFillComplete_run _ _ _ Ho)).
    unfold fill. by rewrite HFO.
Qed.

(** [self += other] for two different objects, [self] UNFILLED, or
    FILLED with fewer nonzeros than [other]. *)
Lemma iadd_unites_run w self other S O :
  heap w !! self = Some S → heap w !! other = Some O → self ≠ other →
  Filled S = false ∨ (NumGlobalNonzeros S < NumGlobalNonzeros O)%nat →
  ∃ w' S',
    __iadd__ self other w = (Ok self, w') ∧
    heap w' !! self = Some S' ∧ Filled S' = false ∧
    warnings w' = warnings w ∧
    dom (Values S') = dom (Values S) ∪ dom (Values O) ∧
    ∀ p, Values S' !! p =
         match Values S !! p, Values O !! p with
         | Some s, Some o => Some (if Filled S then vadd o s else vadd s o)
         | Some s, None => Some s
         | None, Some o => Some o
         | None, None => None
         end.
Proof.
  intros Hs Ho Hne Hcase.
  assert (Hvals : ∃ w' S',
    __iadd__ self other w = (Ok self, w') ∧
    heap w' !! self = Some S' ∧ Filled S' = false ∧
    warnings w' = warnings w ∧
    ∀ p, Values S' !! p =
         match Values S !! p, Values O !! p with
         | Some s, Some o => Some (if Filled S then vadd o s else vadd s o)
         | Some s, None => Some s
         | None, Some o => Some o
         | None, None => None
         end).
  { rewrite (iadd_fill_first _ _ _ _ Ho).
    assert (Hs1 : heap (fill other O w) !! self = Some S)
      by by rewrite heap_fill_ne.
    pose proof (heap_fill_eq _ _ _ Ho) as Ho1.
    pose proof (Filled_filled O) as HFO.
    destruct (Filled S) eqn:HFS.
    - destruct Hcase as [?|Hlt]; [done|].
      rewrite (iadd_swap_run _ _ _ S (filled O) Hs1 Ho1 HFO HFS).
      2:{ unfold NumGlobalNonzeros. rewrite Values_filled.
          by apply Nat.ltb_lt. }
      eexists _, _. split; [done|]. simpl.
      split; [apply lookup_insert_eq|].
      unfold Add. rewrite HFO, HFS. simpl.
      split; [done|]. split; [apply warnings_fill|].
      intros p. rewrite !lookup_merge, lookup_empty, Values_filled.
      by destruct (Values S !! p), (Values O !! p).
    - rewrite (iadd_run _ _ _ S (filled O) Hs1 Ho1 HFO).
      2:{ by rewrite HFS. }
      eexists _, _. split; [done|]. simpl.
      split; [apply lookup_insert_eq|].
      unfold Add. rewrite HFO, HFS. simpl.
      split; [done|].
      split; [apply warnings_fill|].
      intros p. rewrite lookup_merge, Values_filled.
      by destruct (Values S !! p), (Values O !! p). }
  destruct Hvals as (w' & S' & Hrun & Hs' & HF' & Hw & Hval).
  exists w', S'. repeat split; try done.
  apply set_eq. intros p. rewrite elem_of_union, !elem_of_dom, Hval.
  destruct (Values S !! p), (Values O !! p); split;
    try (intros [?|?]); eauto; try (intros [? ?]; done);
    try (by destruct H0).
Qed.

(** [self += self] on an UNFILLED matrix: the matrix is filled and
    summed into itself. *)
Lemma iadd_self_run w self S :
  heap w !! self = Some S →
  ∃ w' S',
    __iadd__ self self w = (Ok self, w') ∧
    heap w' !! self = Some S' ∧ Filled S' = true ∧
    warnings w' = warnings w ∧
    dom (Values S') = dom (Values S) ∧
    ∀ p, Values S' !! p = (λ s, vadd s s) <$> Values S !! p.
Proof.
  intros Hs.
  rewrite (iadd_fill_first _ _ _ _ Hs).
  pose proof (heap_fill_eq _ _ _ Hs) as Hs1.
  pose proof (Filled_filled S) as HFS.
  rewrite (iadd_run _ _ _ (filled S) (filled S) Hs1 Hs1 HFS).
  2:{ rewrite HFS. simpl. apply Nat.ltb_irrefl. }
  assert (Hval : ∀ p, merge sum_into (Values S) (Values S) !! p =
                      (λ s, vadd s s) <$> Values S !! p).
  { intros p. rewrite lookup_merge. by destruct (Values S !! p). }
  eexists _, _. split; [done|]. simpl.
  split; [apply lookup_insert_eq|].
  unfold Add. rewrite HFS. simpl. rewrite Values_filled.
  split; [done|]. split.
  { assert (Hsub : dom (Values S) ⊆ dom (Values S)) by set_solver.
    rewrite (bool_decide_eq_true_2 _ Hsub).
    rewrite bool_decide_eq_false_2 by (by intros ?). apply warnings_fill. }
  split; [|done].
  apply set_eq. intros p. by rewrite !elem_of_dom, Hval, fmap_is_Some.
Qed.

(** [Rows.__iadd__] first fills its operand, and in its second branch
    it is [__iadd__]. *)
Lemma Rows_iadd_fill_first (rows : Z) w self other O :
  heap w !! other = Some O →
  Rows.__iadd__ rows self other w
    = Rows.__iadd__ rows self other (fill other O w).
Proof.
  intros Ho. unfold Rows.__iadd__.
  rewrite (bind_Ok _ _ w _ _ (getMatrix_run _ _ _ Ho)).
  rewrite (bind_Ok _ _ (fill other O w) _ _
             (getMatrix_run _ _ _ (heap_fill_eq _ _ _ Ho))).
  rewrite Filled_filled, (bind_ret_run () _ (fill other O w)).
  destruct (Filled O) eqn:HFO.
  - by rewrite fill_Filled, bind_ret_run.
  - rewrite (bind_Ok _ _ _ _ _ (callFillComplete_run _ _ _ Ho)).
    unfold fill. by rewrite HFO.
Qed.

Lemma Rows_iadd_else (rows : Z) w self other (s o : CrsMatrix V) :
  heap w !! self = Some s → heap w !! other = Some o →
  Filled o = true →
  Filled s && Nat.ltb (NumGlobalNonzeros s) (NumGlobalNonzeros o) = false →
  Rows.__iadd__ rows self other w = __iadd__ self other w.
Proof.
  intros Hs Ho HF Hc. unfold Rows.__iadd__, __iadd__.
  rewrite !(bind_Ok _ _ _ _ _ (getMatrix_run _ _ _ Ho)). rewrite HF.
  rewrite !bind_ret_run.
  rewrite !(bind_Ok _ _ _ _ _ (getMatrix_run _ _ _ Hs)).
  rewrite !(bind_Ok _ _ _ _ _ (getMatrix_run _ _ _ Ho)).
  by rewrite Hc.
Qed.

(** X7: [self += other] when [self] is UNFILLED, or FILLED with fewer
    nonzeros than [other] and with rows.  For two different objects it
    never loses a value and never warns: [self] ends with the union of
    the two patterns, holding the sum where both store a value and the
    one value elsewhere, and [self] is UNFILLED afterwards, also when it
    was FILLED before.  For [self += self] the matrix is filled first and
    then summed into itself: it ends FILLED, with its structure and every
    value doubled, and nothing is warned. *)
Theorem iadd_unites_patterns w self other S O (NumGlobalRows : Z) :
  heap w !! self = Some S → heap w !! other = Some O →
  Filled S = false ∨ (NumGlobalNonzeros S < NumGlobalNonzeros O)%nat →
  (Filled S = true → NumGlobalRows ≠ 0%Z) →
  (self ≠ other →
   ∃ w' S',
     Rows.__iadd__ NumGlobalRows self other w = (Ok self, w') ∧
     heap w' !! self = Some S' ∧ Filled S' = false ∧
     warnings w' = warnings w ∧
     dom (Values S') = dom (Values S) ∪ dom (Values O) ∧
     ∀ p, Values S' !! p =
          match Values S !! p, Values O !! p with
          | Some s, Some o => Some (if Filled S then vadd o s else vadd s o)
          | Some s, None => Some s
          | None, Some o => Some o
          | None, None => None
          end) ∧
  (self = other →
   ∃ w' S',
     Rows.__iadd__ NumGlobalRows self other w = (Ok self, w') ∧
     heap w' !! self = Some S' ∧ Filled S' = true ∧
     warnings w' = warnings w ∧
     dom (Values S') = dom (Values S) ∧
     ∀ p, Values S' !! p = (λ s, vadd s s) <$> Values S !! p).
Proof.
  intros Hs Ho Hcase Hrows.
  assert (Hrun : Rows.__iadd__ NumGlobalRows self other w
                 = __iadd__ self other w).
  { destruct (Filled S) eqn:HFS.
    - by rewrite Rows_iadd_eq by auto.
    - rewrite (Rows_iadd_fill_first _ _ _ _ _ Ho).
      rewrite (iadd_fill_first _ _ _ _ Ho).
      pose proof (heap_fill_eq _ _ _ Ho) as Ho1.
      pose proof (Filled_filled O) as HFO.
      destruct (decide (self = other)) as [->|Hne].
      + apply (Rows_iadd_else _ _ _ _ (filled O) (filled O)); try done.
        rewrite HFO. simpl. apply Nat.ltb_irrefl.
      + apply (Rows_iadd_else _ _ _ _ S (filled O)); try done.
        * by rewrite heap_fill_ne.
        * by rewrite HFS. }
  rewrite Hrun. split.
  - intros Hne. by apply (iadd_unites_run w self other S O).
  - intros ->. assert (S = O) as <- by congruence.
    by apply iadd_self_run.
Qed.

(** X8: [self += other] when [self] is FILLED and has at least as many
    nonzeros as [other]: the structure of [self] is kept, every position
    of [self] that [other] stores too has [other]'s value added, the
    values of [other] at positions [self] lacks are dropped, and the
    warning is issued exactly when there is such a position. *)
Theorem iadd_sums_into_filled w self other S O :
  heap w !! self = Some S → heap w !! other = Some O → self ≠ other →
  Filled S = true → (NumGlobalNonzeros O ≤ NumGlobalNonzeros S)%nat →
  ∃ w' S',
    __iadd__ self other w = (Ok self, w') ∧
    heap w' !! self = Some S' ∧ Filled S' = true ∧
    dom (Values S') = dom (Values S) ∧
    (∀ p, Values S' !! p =
          (λ s, match Values O !! p with
                | Some o => vadd s o
                | None => s
                end) <$> Values S !! p) ∧
    (dom (Values O) ⊆ dom (Values S) → warnings w' = warnings w) ∧
    (¬ dom (Values O) ⊆ dom (Values S) →
     warnings w' =
       "EpetraExt.Add returned error code in __iadd__"%string :: warnings w).
Proof.
  intros Hs Ho Hne HFS Hle.
  rewrite (iadd_fill_first _ _ _ _ Ho).
  assert (Hs1 : heap (fill other O w) !! self = Some S)
    by by rewrite heap_fill_ne.
  pose proof (heap_fill_eq _ _ _ Ho) as Ho1.
  pose proof (Filled_filled O) as HFO.
  rewrite (iadd_run _ _ _ S (filled O) Hs1 Ho1 HFO).
  2:{ rewrite HFS. simpl. unfold NumGlobalNonzeros in *.
      rewrite Values_filled. apply Nat.ltb_ge. lia. }
  eexists _, _. split; [done|]. simpl.
  split; [apply lookup_insert_eq|].
  unfold Add. rewrite HFO, HFS. simpl. rewrite Values_filled.
  assert (Hval : ∀ p, merge sum_into (Values S) (Values O) !! p =
          (λ s, match Values O !! p with
                | Some o => vadd s o
                | None => s
                end) <$> Values S !! p).
  { intros p. rewrite lookup_merge.
    by destruct (Values S !! p), (Values O !! p). }
  split; [done|]. split.
  { apply set_eq. intros p. by rewrite !elem_of_dom, Hval, fmap_is_Some. }
  split; [done|]. split.
  - intros Hsub. rewrite (bool_decide_eq_true_2 _ Hsub).
    rewrite bool_decide_eq_false_2 by (by intros ?). apply warnings_fill.
  - intros Hsub. rewrite (bool_decide_eq_false_2 _ Hsub).
    rewrite bool_decide_eq_true_2 by done. by rewrite warnings_fill.
Qed.

End InPlace.

(** ** Copies and scalar multiples *)

Section Copies.
Context {V : Type} `{Scalar V}.
Import Epetra.
Implicit Types (w : World V) (m : CrsMatrix V) (self : loc).

(** [self * s] for a matrix that has rows. *)
Lemma mul_scalar_values w self m (s : V) :
  heap w !! self = Some m →
  ∃ l w' R,
    __mul__scalar self s w = (Ok l, w') ∧
    heap w !! l = None ∧ heap w' !! l = Some R ∧ Filled R = true ∧
    dom (Values R) = dom (Values m) ∧
    (∀ p, Values R !! p = (λ x, vmul x s) <$> Values m !! p) ∧
    heap w' !! self = Some (filled m) ∧
    (∀ l', l' ≠ l → l' ≠ self → heap w' !! l' = heap w !! l') ∧
    warnings w' = warnings w.
Proof.
  intros Hm. unfold __mul__scalar.
  rewrite (bind_Ok _ _ _ _ _ (copy_run _ _ _ Hm)). cbn zeta.
  set (w0 := fill self m w).
  set (l := fresh (dom (heap w0))).
  assert (Hself0 : heap w0 !! self = Some (filled m)) by by apply heap_fill_eq.
  assert (Hne : l ≠ self).
  { apply not_eq_sym. by eapply fresh_heap_ne. }
  erewrite bind_Ok; last first.
  { apply getMatrix_run. simpl. apply lookup_insert_eq. }
  eexists l, _, _. split; [done|]. simpl.
  split. { apply not_elem_of_dom. rewrite <- (dom_heap_fill w self m Hm).
           apply is_fresh. }
  split; [apply lookup_insert_eq|].
  split; [apply Filled_filled|].
  unfold Scale. cbn [Values]. rewrite Values_filled.
  split; [apply dom_fmap_L|]. split; [intros p; apply lookup_fmap|].
  split. { by rewrite !lookup_insert_ne. }
  split. { intros l' Hl' Hs'. rewrite !lookup_insert_ne by done.
           by apply heap_fill_ne. }
  apply warnings_fill.
Qed.

(** X10: [self * s] for a scalar [s] and a matrix that has rows is a new
    FILLED object with the structure of [self] and every stored value
    multiplied by [s]; [self] keeps its values (and is FILLED
    afterwards), no other object changes and nothing is warned.  On a
    matrix without rows it raises [ZeroDivisionError] once [self] is
    filled, and there is no new object. *)
Theorem mul_scalar_scales_a_copy w self m (s : V) (NumGlobalRows : Z) :
  heap w !! self = Some m →
  (NumGlobalRows ≠ 0%Z →
   ∃ l w' R,
     Rows.__mul__scalar NumGlobalRows self s w = (Ok l, w') ∧
     heap w !! l = None ∧ heap w' !! l = Some R ∧ Filled R = true ∧
     dom (Values R) = dom (Values m) ∧
     (∀ p, Values R !! p = (λ x, vmul x s) <$> Values m !! p) ∧
     heap w' !! self = Some (filled m) ∧
     (∀ l', l' ≠ l → l' ≠ self → heap w' !! l' = heap w !! l') ∧
     warnings w' = warnings w) ∧
  (NumGlobalRows = 0%Z →
   Rows.__mul__scalar NumGlobalRows self s w
     = (Raise ZeroDivisionError, fill self m w)).
Proof.
  intros Hm. split.
  - intros Hrows. rewrite Rows_mul_scalar_eq by done.
    by apply mul_scalar_values.
  - intros ->. by apply Rows_mul_scalar_zero.
Qed.

End Copies.

(** ** Row and column numbering of the mesh matrix *)

Section Numbering.
Import MeshMatrix.

Lemma bind_lookup_block {A B} (f : A → list B) (N : nat) (l : list A)
    (e i : nat) :
  (∀ x, length (f x) = N) → (i < N)%nat →
  (l ≫= f) !! (e * N + i)%nat = l !! e ≫= λ x, f x !! i.
Proof.
  intros Hlen Hi. revert e. induction l as [|x l IH]; intros e.
  - by rewrite lookup_nil.
  - rewrite bind_cons. destruct e as [|e].
    + simpl. rewrite lookup_app_l; [done|]. rewrite Hlen. lia.
    + rewrite lookup_app_r by (rewrite Hlen; lia).
      rewrite Hlen. replace (S e * N + i - N)%nat with (e * N + i)%nat by lia.
      apply IH.
Qed.

Lemma length_bind_const {A B} (f : A → list B) (N : nat) (l : list A) :
  (∀ x, length (f x) = N) → length (l ≫= f) = (length l * N)%nat.
Proof.
  intros Hlen. induction l as [|x l IH]; [done|].
  rewrite bind_cons, length_app, Hlen, IH. simpl. lia.
Qed.

(** The blocks of global row IDs, computed without a bound on the
    numbers. *)
Lemma blocks_of_global_rows (self : _TrilinosMeshMatrix) (IDs : list Z) :
  let M := Pos.to_nat (numberOfEquations self) in
  let G := globalNumberOfCells (mesh self) in
  length (_cellIDsToGlobalRowIDs self IDs) = (M * length IDs)%nat ∧
  (∀ e i c, (e < M)%nat → IDs !! i = Some c →
     _cellIDsToGlobalRowIDs self IDs !! (e * length IDs + i)%nat
       = Some (c + Z.of_nat e * G)%Z) ∧
  (NoDup IDs → Forall (λ c, 0 ≤ c < G)%Z IDs →
   NoDup (_cellIDsToGlobalRowIDs self IDs) ∧
   Forall (λ r, 0 ≤ r < Z.of_nat M * G)%Z (_cellIDsToGlobalRowIDs self IDs)).
Proof.
  intros M G. unfold _cellIDsToGlobalRowIDs, blocks. fold M. fold G.
  assert (Hlen : ∀ e : Z, length ((λ c, c + e * G)%Z <$> IDs) = length IDs)
    by (intros; apply length_fmap).
  split; [|split].
  - rewrite (length_bind_const _ (length IDs)) by done.
    unfold numerix.arange. by rewrite length_fmap, length_seq.
  - intros e i c He Hc.
    rewrite (bind_lookup_block _ (length IDs)); [|done|by eapply lookup_lt_Some].
    unfold numerix.arange. rewrite list_lookup_fmap, lookup_seq_lt by done.
    simpl. by rewrite list_lookup_fmap, Hc.
  - intros Hnd Hrange. rewrite Forall_forall in Hrange. split.
    + apply NoDup_bind.
      * intros e1 e2 y He1 He2 Hy1 Hy2.
        apply list_elem_of_fmap in Hy1 as (c1 & -> & Hc1).
        apply list_elem_of_fmap in Hy2 as (c2 & Heq & Hc2).
        apply Hrange in Hc1, Hc2.
        unfold numerix.arange in He1, He2.
        apply list_elem_of_fmap in He1 as (n1 & -> & _).
        apply list_elem_of_fmap in He2 as (n2 & -> & _).
        f_equal. nia.
      * intros e _. apply NoDup_fmap_2; [|done]. intros c1 c2. lia.
      * unfold numerix.arange. apply NoDup_fmap_2; [|apply NoDup_seq].
        intros n1 n2. lia.
    + apply Forall_forall. intros r Hr.
      apply list_elem_of_bind in Hr as (e & Hr & He).
      apply list_elem_of_fmap in Hr as (c & -> & Hc). apply Hrange in Hc.
      unfold numerix.arange in He.
      apply list_elem_of_fmap in He as (n & -> & Hn).
      apply elem_of_seq in Hn. nia.
Qed.

(** int64 keeps the numbers from 0 to below [2 ^ 63]. *)
Lemma int64_small (z : Z) : (0 ≤ z < 2 ^ 63)%Z → int64 z = z.
Proof.
  unfold int64, wrap. intros Hz.
  change (2 ^ (64 - 1))%Z with (2 ^ 63)%Z.
  rewrite Z.mod_small; lia.
Qed.

Lemma bind_ext_in {A B} (f g : A → list B) (l : list A) :
  (∀ x, x ∈ l → f x = g x) → l ≫= f = l ≫= g.
Proof.
  induction l as [|x l IH]; intros Hfg; [done|].
  rewrite !bind_cons, (Hfg x), IH; [done| |by left].
  intros y Hy. apply Hfg. by right.
Qed.

Lemma fmap_ext_in {A B} (f g : A → B) (l : list A) :
  (∀ x, x ∈ l → f x = g x) → f <$> l = g <$> l.
Proof.
  induction l as [|x l IH]; intros Hfg; [done|].
  rewrite !fmap_cons, (Hfg x), IH; [done| |by left].
  intros y Hy. apply Hfg. by right.
Qed.

(** Within the bound the int64 computation is exact. *)
Lemma Wrapping_blocks_exact (M : positive) (G : Z) (IDs : list Z) :
  Forall (λ c, 0 ≤ c < G)%Z IDs → (Z.pos M * G < 2 ^ 63)%Z →
  Wrapping.blocks M G IDs = blocks M G IDs.
Proof.
  intros Hrange Hbound. rewrite Forall_forall in Hrange.
  unfold Wrapping.blocks, blocks.
  apply bind_ext_in. intros e He.
  unfold numerix.arange in He.
  apply list_elem_of_fmap in He as (n & -> & Hn).
  apply elem_of_seq in Hn.
  apply fmap_ext_in. intros c Hc. apply Hrange in Hc.
  assert (0 ≤ Z.of_nat n * G ∧ c + Z.of_nat n * G < 2 ^ 63)%Z
    as [? ?] by nia.
  rewrite (int64_small (Z.of_nat n * G)) by lia.
  apply int64_small. lia.
Qed.

(** X11: the global row IDs of the cells [IDs], for cell IDs in
    [0, globalNumberOfCells) and fewer than [2 ^ 63] rows, where the int64
    arithmetic of numpy is exact: block [e] of the result (there are
    [numberOfEquations] blocks, each as long as [IDs]) holds the cell IDs
    shifted by [e * globalNumberOfCells]; the row IDs lie in
    [0, numberOfEquations * globalNumberOfCells), and they are distinct
    when the cell IDs are. *)
Theorem cellIDs_to_global_rows (self : _TrilinosMeshMatrix) (IDs : list Z) :
  let M := Pos.to_nat (numberOfEquations self) in
  let G := globalNumberOfCells (mesh self) in
  let rowIDs := Wrapping._cellIDsToGlobalRowIDs self IDs in
  Forall (λ c, 0 ≤ c < G)%Z IDs → (Z.of_nat M * G < 2 ^ 63)%Z →
  length rowIDs = (M * length IDs)%nat ∧
  (∀ e i c, (e < M)%nat → IDs !! i = Some c →
     rowIDs !! (e * length IDs + i)%nat = Some (c + Z.of_nat e * G)%Z) ∧
  Forall (λ r, 0 ≤ r < Z.of_nat M * G)%Z rowIDs ∧
  (NoDup IDs → NoDup rowIDs).
Proof.
  intros M G rowIDs Hrange Hbound.
  assert (Hexact : rowIDs = _cellIDsToGlobalRowIDs self IDs).
  { apply Wrapping_blocks_exact; [done|]. subst M. fold G. lia. }
  rewrite Hexact.
  destruct (blocks_of_global_rows self IDs) as (Hlen & Hlook & Hnd).
  split; [done|]. split; [done|]. split.
  - destruct IDs as [|c IDs].
    + unfold _cellIDsToGlobalRowIDs, blocks.
      apply Forall_forall. intros r Hr.
      apply list_elem_of_bind in Hr as (e & Hr & _).
      by apply elem_of_nil in Hr.
    + apply Forall_forall. intros r Hr.
      apply list_elem_of_bind in Hr as (e & Hr & He).
      apply list_elem_of_fmap in Hr as (c' & -> & Hc).
      rewrite Forall_forall in Hrange. apply Hrange in Hc.
      unfold numerix.arange in He.
      apply list_elem_of_fmap in He as (n & -> & Hn).
      apply elem_of_seq in Hn. fold G. fold M in Hn. nia.
  - intros HND. by apply Hnd.
Qed.

End Numbering.

(** ** The cached stencil *)

Section Stencil.
Import MeshMatrix.

(** X12: once [_TrilinosMeshMatrixKeepStencil._getStencil] has returned a
    stencil, every later call returns that same stencil and leaves the
    attributes alone, whatever indices it is given, also indices for
    which the translation itself would raise or select other rows. *)
Theorem kept_stencil_ignores_arguments (self : _TrilinosMeshMatrix)
    (a a1 : KeepStencil.attrs) (id1 id2 : list Z) s :
  KeepStencil._getStencil self a id1 id2 = (Ok s, a1) →
  ∀ id1' id2', KeepStencil._getStencil self a1 id1' id2' = (Ok s, a1).
Proof.
  unfold KeepStencil._getStencil. intros Hrun id1' id2'.
  destruct (KeepStencil.stencil a) as [s0|] eqn:Hs.
  - injection Hrun as <- <-. by rewrite Hs.
  - destruct (MeshMatrix._getStencil self id1 id2) as [s0|]; [|done].
    by injection Hrun as <- <-.
Qed.

(** X13: [flush] needs a matrix to delete and otherwise raises
    [AttributeError] without changing anything.  With [cacheStencil] it
    keeps the stencil, which later calls go on returning; without, it
    deletes the stencil, so that the next [_getStencil] translates its own
    arguments; and when there is no stencil to delete it raises
    [AttributeError] after the matrix is gone. *)
Theorem flush_and_the_stencil (self : _TrilinosMeshMatrix)
    (a : KeepStencil.attrs) (id1 id2 : list Z) :
  (KeepStencil.has_matrix a = false →
   ∀ b, KeepStencil.flush b a = (Raise AttributeError, a)) ∧
  (KeepStencil.has_matrix a = true →
   (∃ a', KeepStencil.flush true a = (Ok (), a') ∧
          KeepStencil.has_matrix a' = false ∧
          ∀ s, KeepStencil.stencil a = Some s →
               KeepStencil._getStencil self a' id1 id2 = (Ok s, a')) ∧
   (∀ s, KeepStencil.stencil a = Some s →
      ∃ a', KeepStencil.flush false a = (Ok (), a') ∧
            KeepStencil.has_matrix a' = false ∧
            KeepStencil._getStencil self a' id1 id2 =
              match MeshMatrix._getStencil self id1 id2 with
              | Some s' => (Ok s', KeepStencil.mkAttrs false (Some s'))
              | None => (Raise IndexError, a')
              end) ∧
   (KeepStencil.stencil a = None →
      ∃ a', KeepStencil.flush false a = (Raise AttributeError, a') ∧
            KeepStencil.has_matrix a' = false)).
Proof.
  unfold KeepStencil.flush, KeepStencil._getStencil. split.
  - intros ->. done.
  - intros ->. split; [|split].
    + eexists. split; [done|]. split; [done|]. intros s Hs. simpl.
      by rewrite Hs.
    + intros s ->. eexists. split; [done|]. split; [done|]. simpl.
      by destruct (MeshMatrix._getStencil self id1 id2).
    + intros ->. by eexists.
Qed.

End Stencil.

(** ** The bandwidth *)

Section BandwidthFacts.

(** X14: with a size hint and a bandwidth of 0, [_TrilinosMatrix.__init__]
    takes as bandwidth the size hint divided by the larger of the two
    dimensions, rounded up: the least number of entries per row that
    holds [sizeHint] nonzeros; an explicit bandwidth is kept; and the row
    size the matrix is created with, [bandwidth*3/2], is not below a
    bandwidth that is not negative. *)
Theorem bandwidth_is_rounded_up (rows cols sizeHint b0 : Z) :
  (1 ≤ Z.max rows cols)%Z →
  let size := Z.max rows cols in
  let b := Bandwidth.bandwidth rows cols 0 (Some sizeHint) in
  (size * (b - 1) < sizeHint ≤ size * b)%Z ∧
  (b0 ≠ 0%Z → Bandwidth.bandwidth rows cols b0 (Some sizeHint) = b0) ∧
  Bandwidth.bandwidth rows cols b0 None = b0 ∧
  (0 ≤ b0 → b0 ≤ Bandwidth.allocated b0)%Z.
Proof.
  intros Hsize size b. subst b. unfold Bandwidth.bandwidth. fold size.
  simpl Z.eqb. cbv iota.
  assert (Hnz : (size =? 0)%Z = false) by (apply Z.eqb_neq; lia).
  rewrite Hnz.
  pose proof (Z.div_mod (sizeHint + size - 1) size ltac:(lia)) as Hdm.
  pose proof (Z.mod_pos_bound (sizeHint + size - 1) size ltac:(lia)) as Hmod.
  split; [nia|]. split.
  - intros Hb0. by rewrite (proj2 (Z.eqb_neq b0 0) Hb0).
  - split; [done|]. intros Hb0. unfold Bandwidth.allocated.
    apply Z.div_le_lower_bound; lia.
Qed.

End BandwidthFacts.

(** ** Writes through the mesh matrix *)

Section MeshWrites.
Context {V : Type} `{Scalar V}.
Import Epetra MeshMatrix.
Implicit Types (w : World V) (m : CrsMatrix V) (self : loc).








End MeshWrites.

(** ** Subtraction in both branches *)

Section Subtraction.
Context {V : Type} `{Scalar V}.
Import Epetra.
Implicit Types (w : World V) (A B : CrsMatrix V).

(** What [_add] with the sign -1 leaves in its result. *)
Lemma sub_values_run w a b A B :
  heap w !! a = Some A → heap w !! b = Some B →
  ∃ r w' R,
    _add a (OMatrix b) (vopp vone) w = (Ok r, w') ∧
    heap w !! r = None ∧ heap w' !! r = Some R ∧ Filled R = true ∧
    ((NumGlobalNonzeros B < NumGlobalNonzeros A)%nat →
     dom (Values R) = dom (Values A) ∧
     ∀ p, Values R !! p =
          (λ x, match Values B !! p with
                | Some y => vadd x (vmul y (vopp vone))
                | None => x
                end) <$> Values A !! p) ∧
    ((NumGlobalNonzeros A ≤ NumGlobalNonzeros B)%nat →
     dom (Values R) = dom (Values B) ∧
     ∀ p, Values R !! p =
          (λ y, match Values A !! p with
                | Some x => vadd y (vmul x (vopp vone))
                | None => y
                end) <$> Values B !! p).
Proof.
  intros Ha Hb.
  destruct (_add_run w a b A B (vopp vone) Ha Hb)
    as (r & w' & R & Hrun & Hfresh & Hr & HF & HV & _).
  exists r, w', R. split; [done|]. split; [done|]. split; [done|].
  split; [done|]. unfold NumGlobalNonzeros. split.
  - intros Hlt. apply Nat.ltb_lt in Hlt.
    assert (Hval : ∀ p, Values R !! p =
          (λ x, match Values B !! p with
                | Some y => vadd x (vmul y (vopp vone))
                | None => x
                end) <$> Values A !! p).
    { intros p. rewrite HV, lookup_added_gt by done.
      by destruct (Values A !! p), (Values B !! p). }
    split; [|done].
    apply set_eq. intros p. by rewrite !elem_of_dom, Hval, fmap_is_Some.
  - intros Hle. apply Nat.ltb_ge in Hle.
    assert (Hval : ∀ p, Values R !! p =
          (λ y, match Values A !! p with
                | Some x => vadd y (vmul x (vopp vone))
                | None => y
                end) <$> Values B !! p).
    { intros p. rewrite HV, lookup_added_le by done.
      by destruct (Values A !! p), (Values B !! p). }
    split; [|done].
    apply set_eq. intros p. by rewrite !elem_of_dom, Hval, fmap_is_Some.
Qed.

(** X16: what [A - B] holds, for two matrices that have rows.  The
    result is a new FILLED object.  When [A] has more nonzeros than [B]
    it has the structure of [A], and each position holds [A]'s value plus
    [B]'s value times -1 (just [A]'s value where [B] stores nothing).
    Otherwise it has the structure of [B], and each position holds [B]'s
    value plus [A]'s value times -1: the operands have changed places. *)
Theorem sub_values w a b A B (rows_a rows_b : Z) :
  heap w !! a = Some A → heap w !! b = Some B →
  rows_a ≠ 0%Z → rows_b ≠ 0%Z →
  ∃ r w' R,
    Rows.__sub__ rows_a rows_b a (OMatrix b) w = (Ok r, w') ∧
    heap w !! r = None ∧ heap w' !! r = Some R ∧ Filled R = true ∧
    ((NumGlobalNonzeros B < NumGlobalNonzeros A)%nat →
     dom (Values R) = dom (Values A) ∧
     ∀ p, Values R !! p =
          (λ x, match Values B !! p with
                | Some y => vadd x (vmul y (vopp vone))
                | None => x
                end) <$> Values A !! p) ∧
    ((NumGlobalNonzeros A ≤ NumGlobalNonzeros B)%nat →
     dom (Values R) = dom (Values B) ∧
     ∀ p, Values R !! p =
          (λ y, match Values A !! p with
                | Some x => vadd y (vmul x (vopp vone))
                | None => y
                end) <$> Values B !! p).
Proof.
  intros Ha Hb Hra Hrb. unfold Rows.__sub__. simpl.
  rewrite Rows_add_eq by done.
  by apply sub_values_run.
Qed.

End Subtraction.

(** ** What a scatter hands to each process *)

Section Scatter.
Context {V : Type} `{Scalar V}.
Import Redistribution.

Lemma assoc_zip_None (g : Z) (ks : list Z) (x : list V) :
  g ∉ ks → assoc g (zip ks x) = None.
Proof.
  revert x. induction ks as [|k ks IH]; intros x Hg; [done|].
  destruct x as [|y x]; [done|]. cbn [zip_with assoc].
  apply not_elem_of_cons in Hg as [Hne Hg].
  rewrite bool_decide_eq_false_2 by done. by apply IH.
Qed.

(** X17: with more than one process, [_numpyToTrilinosVector] reads the
    array of process 0 only: every process receives, for each global
    index of its part of the map, the value process 0 holds at that
    index, and zero for an index outside the array; the arrays of the
    other processes play no part. *)
Theorem scatter_hands_out_root_values (x : list V) (rest : list (list V))
    (map : list (list Z)) :
  NumProc map ≠ 1%nat →
  vMap (_numpyToTrilinosVector (x :: rest) map) = map ∧
  vData (_numpyToTrilinosVector (x :: rest) map) =
    (λ ids : list Z,
       (λ g, if decide (0 ≤ g < Z.of_nat (length x))%Z
             then default vzero (x !! Z.to_nat g) else vzero) <$> ids)
    <$> map.
Proof.
  intros Hn1. unfold _numpyToTrilinosVector.
  rewrite (bool_decide_eq_false_2 _ Hn1).
  unfold Import_Insert. cbn [vMap vData]. split; [done|].
  rewrite (entries_root x rest).
  apply list_fmap_ext. intros _ ids _.
  apply list_fmap_ext. intros _ g _.
  destruct (decide (0 ≤ g < Z.of_nat (length x))%Z) as [Hg|Hg].
  - unfold numerix.arange.
    pose proof (assoc_zip_seq x 0 (Z.to_nat g)) as Ha.
    simpl in Ha. rewrite Z2Nat.id in Ha by lia. by rewrite Ha.
  - rewrite assoc_zip_None; [done|].
    unfold numerix.arange. intros Hin.
    apply list_elem_of_fmap in Hin as (n & -> & Hn).
    apply elem_of_seq in Hn. lia.
Qed.

End Scatter.

(** ** The two implementations of the arithmetic face value *)

Section FaceValue.
Context {V : Type} (sub mul add : V → V → V).
Import ArithmeticCellToFace.

Lemma item_nonneg (var : list V) (j : Z) :
  (0 ≤ j)%Z → numerix.item var j = var !! Z.to_nat j.
Proof.
  intros Hj. unfold numerix.item.
  by rewrite (proj2 (Z.leb_le 0 j) Hj).
Qed.

Lemma take_in_range (var : list V) (ids : list Z) :
  Forall (λ j, (0 ≤ j < Z.of_nat (length var))%Z) ids →
  ∃ cells, numerix.take var ids = Some cells ∧
           length cells = length ids ∧
           ∀ i, cells !! i = ids !! i ≫= λ j, var !! Z.to_nat j.
Proof.
  induction 1 as [|j ids Hj _ IH].
  - by exists [].
  - destruct IH as (cells & Htake & Hlen & Hcells).
    destruct (lookup_lt_is_Some_2 var (Z.to_nat j)) as [c Hc]; [lia|].
    exists (c :: cells). unfold numerix.take in *. simpl.
    rewrite item_nonneg by lia. rewrite Hc. simpl. rewrite Htake. simpl.
    split; [done|]. split; [by rewrite Hlen|].
    intros [|i]; simpl; [done|]. apply Hcells.
Qed.

Lemma calcValuePy_faces (var alpha : list V) (id1 id2 : list Z) (ni : nat) :
  length id1 = ni → length id2 = ni → length alpha = ni →
  Forall (λ j, (0 ≤ j < Z.of_nat (length var))%Z) id1 →
  Forall (λ j, (0 ≤ j < Z.of_nat (length var))%Z) id2 →
  ∃ res, _calcValuePy sub mul add var alpha id1 id2 = Some res ∧
         length res = ni ∧
         ∀ i, res !! i = face sub mul add var alpha id1 id2 i.
Proof.
  intros L1 L2 La H1 H2. unfold _calcValuePy.
  destruct (take_in_range var id1 H1) as (c1 & -> & Lc1 & Hc1).
  destruct (take_in_range var id2 H2) as (c2 & -> & Lc2 & Hc2).
  simpl. rewrite bool_decide_eq_true_2 by (split; congruence).
  eexists. split; [done|]. split.
  - rewrite !length_zip_with. lia.
  - intros i. rewrite !lookup_zip_with, Hc1, Hc2. unfold face.
    destruct (id2 !! i) as [j2|] eqn:E2; simpl.
    + destruct (var !! Z.to_nat j2) as [x2|]; simpl.
      * destruct (id1 !! i) as [j1|]; simpl; [|done].
        destruct (var !! Z.to_nat j1) as [x1|]; simpl; [|done].
        by destruct (alpha !! i).
      * destruct (id1 !! i) as [j1|]; simpl; [|done].
        by destruct (var !! Z.to_nat j1).
    + destruct (id1 !! i) as [j1|]; simpl; [|done].
      by destruct (var !! Z.to_nat j1).
Qed.

Lemma loop_faces (var alpha : list V) (id1 id2 : list Z) (n k : nat)
    (val : list V) :
  (k + n ≤ length val)%nat →
  (∀ i, (k ≤ i < k + n)%nat → is_Some (face sub mul add var alpha id1 id2 i) ∧
        ∃ j1 j2, id1 !! i = Some j1 ∧ id2 !! i = Some j2 ∧
                 (0 ≤ j1)%Z ∧ (0 ≤ j2)%Z) →
  ∃ res,
    foldl (λ acc i, val ← acc; body sub mul add var alpha id1 id2 val i)
          (Some val) (seq k n) = Some res ∧
    length res = length val ∧
    ∀ i, res !! i = if decide (k ≤ i < k + n)%nat
                    then face sub mul add var alpha id1 id2 i else val !! i.
Proof.
  revert k val. induction n as [|n IH]; intros k val Hlen Hfaces.
  - exists val. split; [done|]. split; [done|].
    intros i. rewrite decide_False by lia. done.
  - destruct (Hfaces k ltac:(lia)) as ([e He] & j1 & j2 & Hj1 & Hj2 & P1 & P2).
    assert (Hbody : body sub mul add var alpha id1 id2 val k =
                    Some (<[k := e]> val)).
    { unfold body. unfold face in He. rewrite Hj2, Hj1 in *. simpl in *.
      rewrite option_guard_True by done. simpl.
      destruct (var !! Z.to_nat j2) as [x2|]; [|done]. simpl in *.
      rewrite option_guard_True by done. simpl.
      destruct (var !! Z.to_nat j1) as [x1|]; [|done]. simpl in *.
      destruct (alpha !! k) as [a|]; [|done]. simpl in *.
      rewrite option_guard_True by lia. simpl. congruence. }
    simpl. rewrite Hbody.
    destruct (IH (S k) (<[k := e]> val)) as (res & Hres & Hl & Hval).
    { rewrite length_insert. lia. }
    { intros i Hi. apply Hfaces. lia. }
    exists res. split; [done|]. split.
    { by rewrite Hl, length_insert. }
    intros i. rewrite Hval.
    destruct (decide (S k ≤ i < S k + n)%nat).
    + rewrite decide_True by lia. done.
    + destruct (decide (i = k)) as [->|Hne].
      * rewrite decide_True by lia.
        rewrite list_lookup_insert_eq by lia. done.
      * rewrite decide_False by lia.
        by rewrite list_lookup_insert_ne.
Qed.

(** X18: the inline loop and the Python expression of
    [_ArithmeticCellToFaceVariable] compute the same array: for [ni]
    faces, index arrays, weights and a value array of length [ni], and
    cell indices within the variable, [_calcValueIn] returns what
    [_calcValuePy] returns, namely
    [(var[id1[i]] - var[id2[i]]) * alpha[i] + var[id2[i]]] at each face
    [i], whatever the value array held before. *)
Theorem calcValueIn_agrees_with_calcValuePy (var alpha val : list V)
    (id1 id2 : list Z) (ni : nat) :
  length id1 = ni → length id2 = ni → length alpha = ni →
  length val = ni →
  Forall (λ j, (0 ≤ j < Z.of_nat (length var))%Z) id1 →
  Forall (λ j, (0 ≤ j < Z.of_nat (length var))%Z) id2 →
  ∃ res,
    _calcValueIn sub mul add var alpha id1 id2 val ni = Some res ∧
    _calcValuePy sub mul add var alpha id1 id2 = Some res ∧
    length res = ni ∧
    ∀ i, (i < ni)%nat → res !! i = face sub mul add var alpha id1 id2 i ∧
                        is_Some (res !! i).
Proof.
  intros L1 L2 La Lv H1 H2.
  destruct (calcValuePy_faces var alpha id1 id2 ni L1 L2 La H1 H2)
    as (res & HPy & Lres & Hres).
  assert (Hface : ∀ i, (i < ni)%nat →
            is_Some (face sub mul add var alpha id1 id2 i) ∧
            ∃ j1 j2, id1 !! i = Some j1 ∧ id2 !! i = Some j2 ∧
                     (0 ≤ j1)%Z ∧ (0 ≤ j2)%Z).
  { intros i Hi. split.
    - rewrite <- Hres. apply lookup_lt_is_Some_2. lia.
    - destruct (lookup_lt_is_Some_2 id1 i) as [j1 Hj1]; [lia|].
      destruct (lookup_lt_is_Some_2 id2 i) as [j2 Hj2]; [lia|].
      exists j1, j2. rewrite Forall_lookup in H1, H2.
      pose proof (H1 _ _ Hj1). pose proof (H2 _ _ Hj2).
      repeat split; [done|done|lia|lia]. }
  destruct (loop_faces var alpha id1 id2 ni 0 val) as (res' & HIn & Lres' & Hres').
  { lia. }
  { intros i Hi. apply Hface. lia. }
  assert (res' = res) as ->.
  { apply list_eq. intros i. rewrite Hres', Hres.
    destruct (decide (0 ≤ i < 0 + ni)%nat); [done|].
    rewrite lookup_ge_None_2 by lia. symmetry.
    rewrite <- Hres. apply lookup_ge_None_2. lia. }
  exists res. split; [done|]. split; [done|]. split; [done|].
  intros i Hi. split; [apply Hres|].
  apply lookup_lt_is_Some_2. lia.
Qed.

End FaceValue.

(** ** Warnings and index errors *)

Section Edges.
Context {V : Type} `{Scalar V}.
Import Epetra MeshMatrix.
Implicit Types (w : World V) (m : CrsMatrix V) (self : loc).

(** X19: [addAt] on a FILLED matrix does not warn when every position of
    the batch is stored: the values are added in batch order, the
    structure and the warnings stay as they were. *)
Theorem addAt_filled_all_stored w self m vector id1 id2 :
  heap w !! self = Some m → Filled m = true →
  (∀ t, t ∈ triples id1 id2 vector → is_Some (Values m !! t.1)) →
  ∃ m',
    addAt self vector id1 id2 w =
      (Ok (), mkWorld (<[self := m']> (heap w)) (warnings w) (calls w)) ∧
    Filled m' = true ∧
    ∀ p, Values m' !! p =
         (λ x, foldl vadd x (targeting p (triples id1 id2 vector)))
           <$> Values m !! p.
Proof.
  intros Hm HF Hall.
  rewrite (addAt_filled_run _ _ _ _ _ _ Hm HF).
  eexists. split; [|split].
  - f_equal. f_equal.
    rewrite bool_decide_eq_false_2; [done|].
    unfold SumIntoGlobalValues, writeAll. simpl.
    rewrite foldl_write1_code. simpl. intros [?|(t & Ht & Hn)]; [done|].
    destruct (Hall t Ht) as [x Hx]. congruence.
  - done.
  - intros p. unfold SumIntoGlobalValues, writeAll. simpl.
    by rewrite foldl_write1_lookup.
Qed.

Lemma compress_Some_length {A} (a : list A) (mask : list bool) r :
  numerix.compress a mask = Some r → length a = length mask.
Proof.
  revert mask r. induction a as [|x a IH]; intros [|b mask] r; try done.
  cbn [numerix.compress].
  destruct (numerix.compress a mask) as [r0|] eqn:E; [|done].
  intros _. simpl. f_equal. by eapply IH.
Qed.

Lemma item_out_of_range {A} (a : list A) (j : Z) :
  ¬ (- Z.of_nat (length a) ≤ j < Z.of_nat (length a))%Z →
  numerix.item a j = None.
Proof.
  intros Hj. unfold numerix.item.
  destruct (0 <=? j)%Z eqn:E0.
  - apply Z.leb_le in E0. apply lookup_ge_None_2. lia.
  - apply Z.leb_gt in E0.
    destruct (- Z.of_nat (length a) <=? j)%Z eqn:E1; [|done].
    apply Z.leb_le in E1. lia.
Qed.

Lemma take_out_of_range {A} (a : list A) (ids : list Z) j :
  j ∈ ids → ¬ (- Z.of_nat (length a) ≤ j < Z.of_nat (length a))%Z →
  numerix.take a ids = None.
Proof.
  intros Hin Hj. unfold numerix.take. apply mapM_None.
  apply Exists_exists. exists j. split; [done|].
  by apply item_out_of_range.
Qed.

(** X20: the translation raises [IndexError] when a local row or column
    index lies outside the table of global overlapping row IDs (below
    minus its length or not below its length), and when the index arrays
    or the value array differ in length. *)
Theorem globalNonOverlapping_index_errors (self : _TrilinosMeshMatrix)
    (vector : list V) (id1 id2 : list Z) :
  let n := Z.of_nat (length (_globalOverlappingRowIDs self)) in
  (∃ j, (j ∈ id1 ∨ j ∈ id2) ∧ ¬ (- n ≤ j < n)%Z) ∨
  length id2 ≠ length id1 ∨ length vector ≠ length id1 →
  _globalNonOverlapping self vector id1 id2 = None.
Proof.
  intros n Hbad. unfold _globalNonOverlapping, _getStencil.
  destruct (numerix.take (_globalOverlappingRowIDs self) id1) as [g1|] eqn:E1;
    [|done].
  destruct (numerix.take (_globalOverlappingRowIDs self) id2) as [g2|] eqn:E2;
    [|done].
  cbn [mbind option_bind].
  pose proof (take_length _ _ _ E1) as L1.
  pose proof (take_length _ _ _ E2) as L2.
  destruct Hbad as [(j & [Hj|Hj] & Hout)|[Hlen|Hlen]].
  - by rewrite (take_out_of_range _ _ _ Hj Hout) in E1.
  - by rewrite (take_out_of_range _ _ _ Hj Hout) in E2.
  - destruct (numerix.compress g1 _) as [r1|]; [|done].
    cbn [mbind option_bind].
    destruct (numerix.compress g2 _) as [r2|] eqn:C2; [|done].
    apply compress_Some_length in C2.
    unfold numerix.in1d in C2. rewrite length_fmap in C2. lia.
  - destruct (numerix.compress g1 _) as [r1|]; [|done].
    cbn [mbind option_bind].
    destruct (numerix.compress g2 _) as [r2|]; [|done].
    cbn [mbind option_bind].
    destruct (numerix.compress vector _) as [v|] eqn:Cv; [|done].
    apply compress_Some_length in Cv.
    unfold numerix.in1d in Cv. rewrite length_fmap in Cv. lia.
Qed.

End Edges.

(** ** The further properties at concrete inputs *)

Module Instances.
Import Epetra Scenarios.

Lemma addAt_unfilled_example :
  let id := Cast.mkIndices true [0; 0]%Z in
  ∃ m',
    Cast.addAt 1%positive [2; 3]%float id id (one unfilled_1x1) =
      (Ok (), mkWorld (<[1%positive := m']> (heap (one unfilled_1x1)))
                      [] []) ∧
    Filled m' = false ∧
    ∀ p, Values m' !! p =
         accumulated (Values unfilled_1x1 !! p)
           (targeting p (triples [0; 0]%Z [0; 0]%Z [2; 3]%float)).
Proof.
  refine (addAt_unfilled_accumulates (one unfilled_1x1) 1%positive
            unfilled_1x1 [2; 3]%float (Cast.mkIndices true [0; 0]%Z)
            (Cast.mkIndices true [0; 0]%Z) _ _ _ _).
  - reflexivity.
  - reflexivity.
  - simpl. repeat (apply Forall_cons_2; [unfold in_int32; lia|]).
    apply Forall_nil_2.
  - simpl. repeat (apply Forall_cons_2; [unfold in_int32; lia|]).
    apply Forall_nil_2.
Defined.

Lemma frozen_structure_example :
  ∃ w' m', addAt 1%positive [2; 7]%float [0; 0]%Z [0; 5]%Z (one filled_1x1)
             = (Ok (), w') ∧
           heap w' !! 1%positive = Some m' ∧ Filled m' = true ∧
           dom (Values m') = dom (Values filled_1x1).
Proof.
  refine (proj1 (filled_structure_is_frozen (one filled_1x1) 1%positive
                   filled_1x1 [2; 7]%float [0; 0]%Z [0; 5]%Z _ _));
    reflexivity.
Defined.

Lemma put_filled_example :
  ∃ w' m',
    Cast.put 1%positive [2; 7; 4]%float (Cast.mkIndices true [0; 0; 0]%Z)
      (Cast.mkIndices false [0; 5; 0]%Z) (one filled_1x1)
      = (Ok (), w') ∧
    heap w' !! 1%positive = Some m' ∧
    (∀ p, Values m' !! p =
          (λ x, default x
                  (last (targeting p
                     (triples [0; 0; 0]%Z [0; 5; 0]%Z [2; 7; 4]%float))))
            <$> Values filled_1x1 !! p) ∧
    ((∃ t, t ∈ triples [0; 0; 0]%Z [0; 5; 0]%Z [2; 7; 4]%float ∧
           Values filled_1x1 !! t.1 = None) →
     warnings w' = [ReplaceWarning]) ∧
    ((∀ t, t ∈ triples [0; 0; 0]%Z [0; 5; 0]%Z [2; 7; 4]%float →
           is_Some (Values filled_1x1 !! t.1)) →
     warnings w' = []).
Proof.
  refine (put_filled_last_write_wins (one filled_1x1) 1%positive
            filled_1x1 [2; 7; 4]%float (Cast.mkIndices true [0; 0; 0]%Z)
            (Cast.mkIndices false [0; 5; 0]%Z) _ _ _ _).
  - reflexivity.
  - reflexivity.
  - simpl. repeat (apply Forall_cons_2; [unfold in_int32; lia|]).
    apply Forall_nil_2.
  - simpl. repeat (apply Forall_cons_2; [unfold in_int32; lia|]).
    apply Forall_nil_2.
Defined.

Lemma putDiagonal_example :
  ∃ w' m',
    putDiagonal 1%positive [5%float] (one filled_1x1) = (Ok (), w') ∧
    heap w' !! 1%positive = Some m' ∧ warnings w' = [] ∧
    ∀ r c, Values m' !! (r, c) =
           if decide (on_diagonal 1 r c)
           then [5%float] !! Z.to_nat r
           else Values filled_1x1 !! (r, c).
Proof.
  refine (putDiagonal_overwrites_diagonal (one filled_1x1) 1%positive
            filled_1x1 [5%float] _ _ _).
  - reflexivity.
  - reflexivity.
  - intros [|i] Hi; [by eexists|]. simpl in Hi. lia.
Defined.


Lemma iadd_unites_example :
  ∃ w' S',
    Rows.__iadd__ 2 1%positive 2%positive nested = (Ok 1%positive, w') ∧
    heap w' !! 1%positive = Some S' ∧ Filled S' = false ∧
    warnings w' = [] ∧
    dom (Values S') = {[ (0, 0)%Z ]} ∪ {[ (0, 0)%Z; (0, 1)%Z ]}.
Proof.
  destruct (iadd_unites_patterns nested 1%positive 2%positive
              (mkCrs false false {[ (0, 0)%Z := 5%Z ]})
              (mkCrs false false {[ (0, 0)%Z := 3%Z; (0, 1)%Z := 1%Z ]})
              2 eq_refl eq_refl (or_introl eq_refl)
              ltac:(discriminate)) as [Hdistinct _].
  destruct (Hdistinct ltac:(discriminate))
    as (w' & S' & Hrun & HS & HF & Hw & Hdom & _).
  exists w', S'. repeat split; done.
Defined.

Lemma iadd_filled_example :
  ∃ w' S',
    __iadd__ 1%positive 2%positive nested_filled = (Ok 1%positive, w') ∧
    heap w' !! 1%positive = Some S' ∧ Filled S' = true ∧
    Values S' !! (0, 0)%Z = Some 8%Z ∧ Values S' !! (0, 1)%Z = Some 1%Z.
Proof.
  destruct (iadd_sums_into_filled nested_filled 1%positive 2%positive
              (mkCrs true true {[ (0, 0)%Z := 3%Z; (0, 1)%Z := 1%Z ]})
              (mkCrs false false {[ (0, 0)%Z := 5%Z ]})
              eq_refl eq_refl ltac:(discriminate) eq_refl
              ltac:(vm_compute; lia))
    as (w' & S' & Hrun & HS & HF & _ & Hval & _).
  exists w', S'. split; [done|]. split; [done|]. split; [done|].
  split; rewrite Hval; reflexivity.
Defined.

Lemma mul_scalar_example :
  ∃ l w' R,
    Rows.__mul__scalar 1 1%positive 2%float (one unfilled_1x1)
      = (Ok l, w') ∧
    heap w' !! l = Some R ∧ Filled R = true ∧
    Values R !! (0, 0)%Z = Some 2%float.
Proof.
  destruct (proj1 (mul_scalar_scales_a_copy (one unfilled_1x1) 1%positive
                     unfilled_1x1 2%float 1 eq_refl) ltac:(discriminate))
    as (l & w' & R & Hrun & _ & HR & HF & _ & Hval & _).
  exists l, w', R. split; [done|]. split; [done|]. split; [done|].
  rewrite Hval. reflexivity.
Defined.

Lemma kept_stencil_example :
  ∃ s a1,
    KeepStencil._getStencil grid5 (KeepStencil.mkAttrs true None)
      [0; 2; 5]%Z [1; 3; 4]%Z = (Ok s, a1) ∧
    KeepStencil._getStencil grid5 a1 [99]%Z [] = (Ok s, a1).
Proof.
  eexists _, _. split; [reflexivity|].
  refine (kept_stencil_ignores_arguments grid5
            (KeepStencil.mkAttrs true None) _ [0; 2; 5]%Z [1; 3; 4]%Z _ _
            [99]%Z []).
  reflexivity.
Defined.

(** The row IDs of the cells 0 to 3 of [grid5]: three blocks of four. *)
Lemma cellIDs_example :
  length (Wrapping._cellIDsToGlobalRowIDs grid5 [0; 1; 2; 3]%Z) = 12%nat ∧
  NoDup (Wrapping._cellIDsToGlobalRowIDs grid5 [0; 1; 2; 3]%Z).
Proof.
  destruct (cellIDs_to_global_rows grid5 [0; 1; 2; 3]%Z) as (Hlen & _ & _ & Hnd).
  - simpl. repeat (apply Forall_cons_2; [lia|]). apply Forall_nil_2.
  - simpl. lia.
  - split; [exact Hlen|]. apply Hnd.
    refine (bool_decide_unpack _ _). vm_compute. exact I.
Defined.

Lemma bandwidth_example :
  (3 * (Bandwidth.bandwidth 3 2 0 (Some 10) - 1) < 10
     ≤ 3 * Bandwidth.bandwidth 3 2 0 (Some 10))%Z.
Proof.
  exact (proj1 (bandwidth_is_rounded_up 3 2 10 0
                  ltac:(vm_compute; discriminate))).
Defined.


Lemma sub_values_example :
  ∃ r w' R,
    Rows.__sub__ 2 2 1%positive (OMatrix 2%positive) nested_filled
      = (Ok r, w') ∧
    heap w' !! r = Some R ∧
    Values R !! (0, 0)%Z = Some (3 + 5 * -1)%Z ∧
    Values R !! (0, 1)%Z = Some 1%Z.
Proof.
  destruct (sub_values nested_filled 1%positive 2%positive
              (mkCrs true true {[ (0, 0)%Z := 3%Z; (0, 1)%Z := 1%Z ]})
              (mkCrs false false {[ (0, 0)%Z := 5%Z ]}) 2 2 eq_refl eq_refl
              ltac:(discriminate) ltac:(discriminate))
    as (r & w' & R & Hrun & _ & HR & _ & Hgt & _).
  destruct (Hgt ltac:(vm_compute; lia)) as [_ Hval].
  exists r, w', R. split; [done|]. split; [done|].
  split; rewrite Hval; reflexivity.
Defined.

Lemma scatter_example :
  Redistribution.vData (Redistribution._numpyToTrilinosVector
           [ [10; 20; 30]; [] ]%float [ [0; 2; 7]; [1] ]%Z) =
  [ [10; 30; 0]; [20] ]%float.
Proof.
  rewrite (proj2 (scatter_hands_out_root_values [10; 20; 30]%float [ [] ]
                    [ [0; 2; 7]; [1] ]%Z ltac:(discriminate))).
  reflexivity.
Defined.

Lemma face_value_example :
  ∃ res,
    ArithmeticCellToFace._calcValueIn Z.sub Z.mul Z.add
      [10; 20; 30]%Z [1; 0]%Z [0; 1]%Z [1; 2]%Z [7; 7]%Z 2 = Some res ∧
    ArithmeticCellToFace._calcValuePy Z.sub Z.mul Z.add
      [10; 20; 30]%Z [1; 0]%Z [0; 1]%Z [1; 2]%Z = Some res ∧
    length res = 2%nat.
Proof.
  destruct (calcValueIn_agrees_with_calcValuePy Z.sub Z.mul Z.add
              [10; 20; 30]%Z [1; 0]%Z [7; 7]%Z [0; 1]%Z [1; 2]%Z 2
              eq_refl eq_refl eq_refl eq_refl
              ltac:(repeat constructor; simpl; lia)
              ltac:(repeat constructor; simpl; lia))
    as (res & HIn & HPy & Hlen & _).
  by exists res.
Defined.

Lemma addAt_all_stored_example :
  ∃ m',
    addAt 1%positive [2; 3]%float [0; 0]%Z [0; 0]%Z (one filled_1x1) =
      (Ok (), mkWorld (<[1%positive := m']> (heap (one filled_1x1)))
                      [] []) ∧
    Filled m' = true ∧
    ∀ p, Values m' !! p =
         (λ x, foldl vadd x
                 (targeting p (triples [0; 0]%Z [0; 0]%Z [2; 3]%float)))
           <$> Values filled_1x1 !! p.
Proof.
  refine (addAt_filled_all_stored (one filled_1x1) 1%positive filled_1x1
            [2; 3]%float [0; 0]%Z [0; 0]%Z _ _ _).
  - reflexivity.
  - reflexivity.
  - intros t Ht. simpl in Ht.
    apply elem_of_cons in Ht as [->|Ht]; [by eexists|].
    apply elem_of_cons in Ht as [->|Ht]; [by eexists|].
    by apply elem_of_nil in Ht.
Defined.

Lemma index_error_example :
  MeshMatrix._globalNonOverlapping grid5 [10; 20]%float [0; 12]%Z [1; 3]%Z
    = None.
Proof.
  refine (globalNonOverlapping_index_errors grid5 [10; 20]%float
            [0; 12]%Z [1; 3]%Z _).
  left. exists 12%Z. split.
  - left. right. left.
  - vm_compute. intros [_ Hlt]. discriminate Hlt.
Defined.

End Instances.
